(** * pyro.infer.abstract_infer: posterior sample store, empirical marginal,
      diagnostics and posterior-predictive generator

    Shallow embedding of [src/pyro/infer/abstract_infer.py].  Python objects
    that are mutated in place ([self], the trace objects) are threaded through
    a state-and-exception monad; Python lists are lists, Python ints are [Z]
    (list indexing wraps negative indices as Python does), log-weights are
    finite Python floats, modelled as canonical rationals [Qc]. *)

From Stdlib Require Import QArith Qcanon.
From stdpp Require Import base numbers list strings functions gmap fin_maps sorting.

Close Scope Q_scope.
Local Open Scope Z_scope.

(** ** Exceptions and the state-and-exception monad *)

Inductive exn : Type :=
  | IndexError
  | KeyError (key : string)
  | ValueError (msg : string)
  | AssertionError
  | AttributeError
  | TypeError
  | RuntimeError
  | ZeroDivisionError.

Inductive result (A : Type) : Type :=
  | Ok (a : A)
  | Raise (e : exn).
Arguments Ok {A} a.
Arguments Raise {A} e.

(** A computation over a mutable state [St]: on an exception the state reached
    so far is kept, as the Python objects keep their mutations. *)
Definition M (St A : Type) : Type := St → result A * St.

Global Instance M_ret {St} : MRet (M St) := λ A a s, (Ok a, s).
Global Instance M_bind {St} : MBind (M St) := λ A B f m s,
  match m s with
  | (Ok a, s') => f a s'
  | (Raise e, s') => (Raise e, s')
  end.

Definition raise {St A} (e : exn) : M St A := λ s, (Raise e, s).
Definition get {St} : M St St := λ s, (Ok s, s).
Definition modify {St} (f : St → St) : M St unit := λ s, (Ok tt, f s).
Definition lift_result {St A} (r : result A) : M St A := λ s, (r, s).

(** [for i, x in enumerate(l, start): body i x] *)
Fixpoint for_enumerate {St A} (body : nat → A → M St unit) (start : nat) (l : list A)
  : M St unit :=
  match l with
  | [] => mret tt
  | x :: l' => body start x;; for_enumerate body (S start) l'
  end.

(** ** Python list indexing *)

(** [l[i]]: indices in [[0, len)] count from the front, those in [[-len, 0)]
    from the back, anything else raises IndexError. *)
Definition norm_index (len : nat) (i : Z) : option nat :=
  if decide (0 ≤ i < Z.of_nat len) then Some (Z.to_nat i)
  else if decide (- Z.of_nat len ≤ i < 0) then Some (Z.to_nat (Z.of_nat len + i))
  else None.

Definition getitem {A} (l : list A) (i : Z) : result A :=
  match norm_index (length l) i ≫= (l !!.) with
  | Some x => Ok x
  | None => Raise IndexError
  end.

(** ** The posterior sample store *)

(** Trace objects live in an object store; the lists of the sample store hold
    references to them. *)
Abbreviation loc := nat.

(** An item as the generation procedure yields it: a bare trace, a pair or a
    triple. *)
Inductive yielded : Type :=
  | Bare (tr : loc)
  | Pair (tr : loc) (weight : Qc)
  | Triple (tr : loc) (weight : Qc) (chain_id : Z).

(** [sampler_default_args]: the wrapper around a [_traces] generator. *)
Definition default_args (val : yielded) : yielded :=
  match val with
  | Bare tr => Triple tr 1%Qc 0
  | Pair tr w => Triple tr w 0
  | Triple _ _ _ => val
  end.

Definition sampler_default_args (trace_gen : list yielded) : list yielded :=
  default_args <$> trace_gen.

Record TracePosterior : Type := mkTracePosterior {
  num_chains : Z;
  log_weights : list Qc;
  exec_traces : list loc;
  idxs_by_chain : list (list nat);
  _categorical : option (list Qc);
}.

Definition _reset : M TracePosterior unit :=
  modify (λ self,
    {| num_chains := num_chains self;
       log_weights := [];
       exec_traces := [];
       idxs_by_chain := replicate (Z.to_nat (num_chains self)) [];
       _categorical := None |}).

(** [TracePosterior.__init__] *)
Definition __init__ (num_chains : Z) : TracePosterior :=
  snd (_reset {| num_chains := num_chains; log_weights := []; exec_traces := [];
                 idxs_by_chain := []; _categorical := None |}).

(** [tr, logit, chain_id = vals]: only a sequence of three unpacks, and a pair
    is too short.  A bare record is no (record, weight, chain) triple either:
    the unpacking is modelled as failing on it.  What Python does there hangs
    on how a ledger iterates, which the sources at hand do not show; what is
    stated below of bare records is stated of a generation procedure wrapped
    by [sampler_default_args], where none of them reaches this line. *)
Definition unpack3 {St} (vals : yielded) : M St (loc * Qc * Z) :=
  match vals with
  | Triple tr logit chain_id => mret (tr, logit, chain_id)
  | Pair _ _ => raise (ValueError "not enough values to unpack (expected 3, got 2)")
  | Bare _ => raise TypeError
  end.

Definition append_exec_trace (tr : loc) : M TracePosterior unit :=
  modify (λ self,
    {| num_chains := num_chains self; log_weights := log_weights self;
       exec_traces := exec_traces self ++ [tr];
       idxs_by_chain := idxs_by_chain self; _categorical := _categorical self |}).

Definition append_log_weight (logit : Qc) : M TracePosterior unit :=
  modify (λ self,
    {| num_chains := num_chains self; log_weights := log_weights self ++ [logit];
       exec_traces := exec_traces self;
       idxs_by_chain := idxs_by_chain self; _categorical := _categorical self |}).

(** [self.idxs_by_chain[chain_id].append(i)] *)
Definition append_idx (chain_id : Z) (i : nat) : M TracePosterior unit :=
  λ self,
    match norm_index (length (idxs_by_chain self)) chain_id with
    | Some c =>
        (Ok tt,
         {| num_chains := num_chains self; log_weights := log_weights self;
            exec_traces := exec_traces self;
            idxs_by_chain := alter (λ idxs, idxs ++ [i]) c (idxs_by_chain self);
            _categorical := _categorical self |})
    | None => (Raise IndexError, self)
    end.

(** [self._categorical = Categorical(logits=torch.tensor(self.log_weights))] *)
Definition build_categorical : M TracePosterior unit :=
  modify (λ self,
    {| num_chains := num_chains self; log_weights := log_weights self;
       exec_traces := exec_traces self;
       idxs_by_chain := idxs_by_chain self;
       _categorical := Some (log_weights self) |}).

Definition run_body (i : nat) (vals : yielded) : M TracePosterior unit :=
  '(tr, logit, chain_id) ← unpack3 vals;
  append_exec_trace tr;;
  append_log_weight logit;;
  append_idx chain_id i.

(** [TracePosterior.run]; [traces] is what [self._traces(...)] yields. *)
Definition run (traces : list yielded) : M TracePosterior unit :=
  _reset;;
  for_enumerate run_body 0 traces;;
  build_categorical.

(** ** Tensors *)

(** A tensor is a scalar or the stack of its slices along the leading axis. *)
Unset Elimination Schemes.
Inductive tensor : Type :=
  | Scalar (x : Qc)
  | Stack (rows : list tensor).
Set Elimination Schemes.

Fixpoint shape (t : tensor) : list nat :=
  match t with
  | Scalar _ => []
  | Stack [] => [0%nat]
  | Stack (r :: rows) => S (length rows) :: shape r
  end.

(** [torch.stack(ts, 0)]: needs a non-empty list of equally shaped tensors. *)
Definition torch_stack (ts : list tensor) : result tensor :=
  match ts with
  | [] => Raise RuntimeError
  | t :: rest =>
      if decide (Forall (λ t', shape t' = shape t) rest) then Ok (Stack ts)
      else Raise RuntimeError
  end.

(** [[f(x) for x in l]] where [f] may raise. *)
Fixpoint comprehension {A B} (f : A → result B) (l : list A) : result (list B) :=
  match l with
  | [] => Ok []
  | x :: l' =>
      match f x with
      | Ok y => match comprehension f l' with
                | Ok ys => Ok (y :: ys)
                | Raise e => Raise e
                end
      | Raise e => Raise e
      end
  end.

(** [t[idxs]] for an index tensor [idxs]: selects slices along the leading axis. *)
Definition index_select (t : tensor) (idxs : list nat) : result tensor :=
  match t with
  | Scalar _ => Raise IndexError
  | Stack rows =>
      match comprehension (λ i, getitem rows (Z.of_nat i)) idxs with
      | Ok sel => Ok (Stack sel)
      | Raise e => Raise e
      end
  end.

(** [weights.max()] and [weights.min()] of a one-dimensional tensor; an empty
    tensor has neither. *)
Definition Qc_max (x y : Qc) : Qc := if decide (x < y)%Qc then y else x.
Definition Qc_min (x y : Qc) : Qc := if decide (y < x)%Qc then y else x.

Definition tensor_max (ws : list Qc) : result Qc :=
  match ws with
  | [] => Raise RuntimeError
  | w :: ws' => Ok (foldl Qc_max w ws')
  end.

Definition tensor_min (ws : list Qc) : result Qc :=
  match ws with
  | [] => Raise RuntimeError
  | w :: ws' => Ok (foldl Qc_min w ws')
  end.

(** ** Execution records *)

Inductive site_kind : Type := Latent | Observed | Pseudo.

Global Instance site_kind_eq_dec : EqDecision site_kind.
Proof. solve_decision. Defined.

Record node : Type := mkNode { value : tensor; kind : site_kind }.

(** Modelled from the spec: the Execution Record ([pyro.poutine.Trace], which
    is not part of the sources at hand).  "An ordered ledger of named sites,
    each tagged as latent/sampled or observed, holding a value"; the reserved
    return-value pseudo-site is neither latent nor observed.  Its interface is
    "list node names, fetch a node's value, remove a node, copy the whole
    ledger, list stochastic node names, list observation node names". *)
Abbreviation Trace := (gmap string node).

Definition names_of_kind (k : site_kind) (tr : Trace) : list string :=
  (filter (λ p, kind p.2 = k) (map_to_list tr)).*1.

(** Modelled from the spec: [Trace.observation_nodes]. *)
Definition observation_nodes (tr : Trace) : list string := names_of_kind Observed tr.

(** Modelled from the spec: [Trace.stochastic_nodes]; like
    [observation_nodes], which line 98 reads without a call, an attribute
    that holds the list of names. *)
Definition stochastic_nodes (tr : Trace) : list string := names_of_kind Latent tr.

(** [l()] for a list [l]: 'list' object is not callable. *)
Definition call_list {A} (l : list string) : result A := Raise TypeError.

(** [tr.nodes[site]["value"]] *)
Definition node_value (tr : Trace) (site : string) : result tensor :=
  match tr !! site with
  | Some n => Ok (value n)
  | None => Raise (KeyError site)
  end.

(** The object store: trace objects by reference. *)
Record heap : Type := mkHeap { cells : loc → Trace; next : loc }.

Definition deref (l : loc) : M heap Trace := λ h, (Ok (cells h l), h).

Definition alloc (tr : Trace) : M heap loc :=
  λ h, (Ok (next h), {| cells := <[next h := tr]> (cells h); next := S (next h) |}).

(** Modelled from the spec: [Trace.copy], a new ledger object with the same
    sites. *)
Definition copy (l : loc) : M heap loc := tr ← deref l; alloc tr.

(** Modelled from the spec: [Trace.remove_node], in place. *)
Definition remove_node (l : loc) (name : string) : M heap unit :=
  modify (λ h, {| cells := <[l := delete name (cells h l)]> (cells h); next := next h |}).

(** [for x in l: body x] *)
Fixpoint for_each {St A} (body : A → M St unit) (l : list A) : M St unit :=
  match l with
  | [] => mret tt
  | x :: l' => body x;; for_each body l'
  end.

(** ** Drawing from the store *)

(** [self._categorical.sample().item()]: the outcome [random_idx] of the
    categorical primitive is an index of its support; a store that was never
    run has no resampler, and over no categories there is no outcome. *)
Definition categorical_sample (cat : option (list Qc)) (random_idx : Z) : result Z :=
  match cat with
  | None => Raise AttributeError
  | Some logits =>
      if decide (0 ≤ random_idx < Z.of_nat (length logits)) then Ok random_idx
      else Raise RuntimeError
  end.

(** [a % b, a // b] on Python ints *)
Definition divmod (a b : Z) : result (Z * Z) :=
  if decide (b = 0) then Raise ZeroDivisionError else Ok (a `mod` b, a `div` b).

(** [TracePosterior.__call__] *)
Definition __call__ (self : TracePosterior) (random_idx : Z) : M heap loc :=
  random_idx ← lift_result (categorical_sample (_categorical self) random_idx);
  '(chain_idx, sample_idx) ← lift_result (divmod random_idx (num_chains self));
  idxs ← lift_result (getitem (idxs_by_chain self) chain_idx);
  sample_idx ← lift_result (getitem idxs sample_idx);
  stored ← lift_result (getitem (exec_traces self) (Z.of_nat sample_idx));
  trace ← copy stored;
  names ← (tr ← deref trace; mret (observation_nodes tr));
  for_each (remove_node trace) names;;
  mret trace.

(** ** The empirical marginal *)

Global Instance result_ret : MRet result := λ A a, Ok a.
Global Instance result_bind : MBind result := λ A B f r,
  match r with
  | Ok a => f a
  | Raise e => Raise e
  end.

(** Modelled from the spec: the weighted empirical collection
    ([pyro.distributions.Empirical], not part of the sources at hand), which
    "accumulates [a value] into a weighted empirical collection together with
    its log-weight" and "exposes retrieval of the full (values, log-weights)
    pair". *)
Record Empirical : Type := mkEmpirical {
  samples_buffer : list tensor;
  weights_buffer : list Qc;
}.

(** Modelled from the spec: [Empirical.add]. *)
Definition add (value : tensor) (log_weight : Qc) : M Empirical unit :=
  modify (λ self,
    {| samples_buffer := samples_buffer self ++ [value];
       weights_buffer := weights_buffer self ++ [log_weight] |}).

(** Modelled from the spec: [Empirical.get_samples_and_weights]; the values
    come back as one tensor, stacked along a leading sample axis. *)
Definition get_samples_and_weights (self : Empirical) : result (tensor * list Qc) :=
  samples ← torch_stack (samples_buffer self);
  mret (samples, weights_buffer self).

(** The [sites] argument: a site name or a list of site names. *)
Inductive site_selector : Type :=
  | OneSite (name : string)
  | ManySites (names : list string).

(** The value accumulated for one record (lines 41-42). *)
Definition marginal_value (tr : Trace) (sites : site_selector) : result tensor :=
  match sites with
  | OneSite site => node_value tr site
  | ManySites sites =>
      values ← comprehension (node_value tr) sites;
      torch_stack values
  end.

(** [EmpiricalMarginal._populate_traces] *)
Definition populate_one (h : heap) (sites : site_selector) (item : loc * Qc)
  : M Empirical unit :=
  let '(tr, log_weight) := item in
  value ← lift_result (marginal_value (cells h tr) sites);
  add value log_weight.

Definition _populate_traces (h : heap) (trace_posterior : TracePosterior)
    (sites : site_selector) : M Empirical unit :=
  for_each (populate_one h sites)
    (zip (exec_traces trace_posterior) (log_weights trace_posterior)).

(** [EmpiricalMarginal.__init__]: the collection after construction, or the
    exception that construction raises. *)
Definition EmpiricalMarginal (h : heap) (trace_posterior : TracePosterior)
    (sites : option site_selector) : result Empirical :=
  let sites := match sites with None => OneSite "_RETURN" | Some sites => sites end in
  match _populate_traces h trace_posterior sites
          {| samples_buffer := []; weights_buffer := [] |} with
  | (Ok _, self) => Ok self
  | (Raise e, _) => Raise e
  end.

(** ** Diagnostics *)

(** The primitives of [pyro.ops.stats], used as black boxes. *)
Class Stats : Type := {
  effective_sample_size : tensor → tensor;
  split_gelman_rubin : tensor → tensor;
}.

Record diag : Type := mkDiag { n_eff : tensor; r_hat : tensor }.

(** Lines 139-143: the per-chain samples, stacked chain-major. *)
Definition chain_samples_of (marginal : tensor) (idxs_by_chain : list (list nat))
  : result tensor :=
  chain_samples ← comprehension (index_select marginal) idxs_by_chain;
  torch_stack chain_samples.

Definition diagnostics_site `{Stats} (h : heap) (self : TracePosterior) (site : string)
  : M (gmap string diag) unit :=
  '(marginal, weights) ← lift_result
      (em ← EmpiricalMarginal h self (Some (OneSite site));
       get_samples_and_weights em);
  wmax ← lift_result (tensor_max weights);
  wmin ← lift_result (tensor_min weights);
  if decide (wmax ≠ wmin) then
    raise (ValueError "Diagnostics not implemented for differently weighted samples.")
  else
    chain_samples ← lift_result (chain_samples_of marginal (idxs_by_chain self));
    modify (<[site := {| n_eff := effective_sample_size chain_samples;
                         r_hat := split_gelman_rubin chain_samples |}]>).

(** [TracePosterior.diagnostics] *)
Definition diagnostics `{Stats} (h : heap) (self : TracePosterior)
    (sites : option (list string)) : result (gmap string diag) :=
  sites ← match sites with
          | None =>
              if decide (0 < Z.of_nat (length (exec_traces self))) then
                first ← getitem (exec_traces self) 0;
                call_list (stochastic_nodes (cells h first))
              else Raise AssertionError
          | Some sites => Ok sites
          end;
  if decide (num_chains self = 1) then Ok ∅
  else
    match for_each (diagnostics_site h self) sites ∅ with
    | (Ok _, diagnostics) => Ok diagnostics
    | (Raise e, _) => Raise e
    end.

(** ** The posterior-predictive generator *)

(** What [TracePredictive._traces] relies on from outside: the generation
    procedure of the upstream store (its abstract [_traces], which may create
    trace objects) and the replay of the model against a drawn trace,
    [poutine.trace(poutine.replay(model, model_trace)).get_trace(args)]; the
    number of the call stands for the randomness of the fresh sites. *)
Class Engine (Args : Type) : Type := {
  posterior_traces : Args → heap → list yielded * heap;
  replay_get_trace : Args → nat → Trace → Trace;
}.

(** The objects a generator touches: the trace objects, the upstream store
    [self.posterior], the record of the calls of its [run], and what has been
    yielded so far. *)
Record world (Args : Type) : Type := mkWorld {
  objects : heap;
  posterior : TracePosterior;
  posterior_runs : list Args;
  yields : list yielded;
}.
Arguments mkWorld {Args}.
Arguments objects {Args}.
Arguments posterior {Args}.
Arguments posterior_runs {Args}.
Arguments yields {Args}.

Section predictive.
Context {Args : Type} `{Engine Args}.

Definition in_objects {A} (m : M heap A) : M (world Args) A :=
  λ w, let '(r, h) := m (objects w) in
       (r, {| objects := h; posterior := posterior w;
              posterior_runs := posterior_runs w; yields := yields w |}).

Definition in_posterior {A} (m : M TracePosterior A) : M (world Args) A :=
  λ w, let '(r, p) := m (posterior w) in
       (r, {| objects := objects w; posterior := p;
              posterior_runs := posterior_runs w; yields := yields w |}).

(** [self.posterior.run(args)] *)
Definition posterior_run (args : Args) : M (world Args) unit :=
  modify (λ w, {| objects := objects w; posterior := posterior w;
                  posterior_runs := posterior_runs w ++ [args];
                  yields := yields w |});;
  traces ← in_objects (λ h, let '(traces, h') := posterior_traces args h in (Ok traces, h'));
  in_posterior (run traces).

(** [yield val] *)
Definition yield (val : yielded) : M (world Args) unit :=
  modify (λ w, {| objects := objects w; posterior := posterior w;
                  posterior_runs := posterior_runs w;
                  yields := yields w ++ [val] |}).

(** One round of the loop of [TracePredictive._traces] (lines 174-176);
    [draws i] is the outcome of the categorical primitive at the [i]-th
    draw. *)
Definition predictive_step (draws : nat → Z) (args : Args) (i : nat) (_ : unit)
  : M (world Args) unit :=
  p ← in_posterior get;
  model_trace ← in_objects (__call__ p (draws i));
  model_trace ← in_objects (deref model_trace);
  replayed_trace ← in_objects (alloc (replay_get_trace args i model_trace));
  yield (Triple replayed_trace 0%Qc 0).

(** [TracePredictive._traces] *)
Definition _traces (num_samples : Z) (draws : nat → Z) (args : Args)
  : M (world Args) unit :=
  p ← in_posterior get;
  (if decide (exec_traces p = []) then posterior_run args else mret tt);;
  for_enumerate (predictive_step draws args) 0 (replicate (Z.to_nat num_samples) tt).
End predictive.

(** ** Vocabulary of the specification *)

(** A full [(record, log_weight, chain_id)] triple as a yielded item. *)
Definition of_triple (t : loc * Qc * Z) : yielded := Triple t.1.1 t.1.2 t.2.

(** The triple the specification assigns to a yielded item: "a bare record
    defaults to weight 1.0, chain 0; a (record, weight) pair defaults chain to
    0; a full triple is used as-is". *)
Definition normalized (v : yielded) : loc * Qc * Z :=
  match v with
  | Bare tr => (tr, 1%Qc, 0)
  | Pair tr w => (tr, w, 0)
  | Triple tr w c => (tr, w, c)
  end.

(** The positions, counted from [start], of the chain ids that select chain
    [c] among [k] chains, in order of appearance. *)
Fixpoint positions (k c start : nat) (chain_ids : list Z) : list nat :=
  match chain_ids with
  | [] => []
  | z :: rest =>
      (if decide (norm_index k z = Some c) then [start] else [])
        ++ positions k c (S start) rest
  end.

(** The store as [run] leaves it after filing the triples [ts] behind what
    [self] already holds. *)
Definition filed (self : TracePosterior) (start : nat) (ts : list (loc * Qc * Z))
  : TracePosterior :=
  {| num_chains := num_chains self;
     log_weights := log_weights self ++ ts.*1.*2;
     exec_traces := exec_traces self ++ ts.*1.*1;
     idxs_by_chain :=
       imap (λ c idxs, idxs ++ positions (length (idxs_by_chain self)) c start ts.*2)
            (idxs_by_chain self);
     _categorical := _categorical self |}.

(** The store after a run that filed the triples [ts] under [num_chains]
    chains. *)
Definition ready (num_chains : Z) (ts : list (loc * Qc * Z)) : TracePosterior :=
  {| num_chains := num_chains;
     log_weights := ts.*1.*2;
     exec_traces := ts.*1.*1;
     idxs_by_chain :=
       (λ c, positions (Z.to_nat num_chains) c 0 ts.*2) <$> seq 0 (Z.to_nat num_chains);
     _categorical := Some ts.*1.*2 |}.

(** A chain id that [run] accepts for [num_chains] chains. *)
Definition accepted (num_chains : Z) (chain_id : Z) : Prop :=
  is_Some (norm_index (Z.to_nat num_chains) chain_id).

(** Item [i] is stored as the triple [(tr, w, chain_id)]: its record and
    log-weight sit at position [i], and [i] is listed under the chain that
    [chain_id] indexes. *)
Definition stored_at (st : TracePosterior) (i : nat) (tr : loc) (w : Qc) (chain_id : Z)
  : Prop :=
  exec_traces st !! i = Some tr ∧ log_weights st !! i = Some w ∧
  ∃ idxs, getitem (idxs_by_chain st) chain_id = Ok idxs ∧ i ∈ idxs.

(** A record without its observation sites. *)
Definition pruned (tr : Trace) : Trace := filter (λ kv, kind kv.2 ≠ Observed) tr.

(** The drawn index [g] leads [__call__] on the store [st] to the stored
    record [stored]: every lookup of lines 94-97 succeeds. *)
Definition selects (st : TracePosterior) (g : Z) (stored : loc) : Prop :=
  ∃ lw idxs p,
    _categorical st = Some lw ∧ 0 ≤ g < Z.of_nat (length lw) ∧ num_chains st ≠ 0 ∧
    getitem (idxs_by_chain st) (g `mod` num_chains st) = Ok idxs ∧
    getitem idxs (g `div` num_chains st) = Ok p ∧
    getitem (exec_traces st) (Z.of_nat p) = Ok stored.

(** ** Sample objects *)

Definition sample_trace : Trace :=
  <["z" := mkNode (Scalar 1%Qc) Latent]>
    (<["x" := mkNode (Scalar 0%Qc) Observed]>
      (<["_RETURN" := mkNode (Scalar 0%Qc) Pseudo]> ∅)).

Definition sample_heap : heap := {| cells := λ _, sample_trace; next := 4 |}.

Definition sample_items : list yielded :=
  [Triple 0%nat 0%Qc 0; Triple 1%nat 0%Qc 1; Triple 2%nat 0%Qc 0; Triple 3%nat 0%Qc 1].

Definition sample_store : TracePosterior :=
  {| num_chains := 2;
     log_weights := [0%Qc; 0%Qc; 0%Qc; 0%Qc];
     exec_traces := [0%nat; 1%nat; 2%nat; 3%nat];
     idxs_by_chain := [[0%nat; 2%nat]; [1%nat; 3%nat]];
     _categorical := Some [0%Qc; 0%Qc; 0%Qc; 0%Qc] |}.

Definition weighted_items : list yielded :=
  [Triple 0%nat (Qc_of_Z 0) 0; Triple 1%nat (Qc_of_Z (-1)) 1;
   Triple 2%nat (Qc_of_Z (-2)) 0; Triple 3%nat (Qc_of_Z (-3)) 1].

Definition sample_stats : Stats :=
  {| effective_sample_size := λ t, t; split_gelman_rubin := λ t, t |}.

Definition sample_engine : Engine unit :=
  {| posterior_traces := λ _ h, (sample_items, h);
     replay_get_trace := λ _ _ tr, <["x" := mkNode (Scalar 2%Qc) Observed]> tr |}.

Definition sample_world : world unit :=
  {| objects := sample_heap; posterior := __init__ 2; posterior_runs := []; yields := [] |}.

(** An upstream generation procedure that yields its two records under chain
    0, whatever the number of chains. *)
Definition lopsided_engine : Engine unit :=
  {| posterior_traces := λ _ h, ([Triple 0%nat 0%Qc 0; Triple 1%nat 0%Qc 0], h);
     replay_get_trace := λ _ _ tr, tr |}.

(** The chain ids of [n] items yielded round-robin over [k] chains. *)
Definition round_robin (k n : nat) : list Z := (λ i, Z.of_nat (i `mod` k)) <$> seq 0 n.

(** ** Running the posterior-predictive generator *)

(** [TracePredictive] inherits [run]; its constructor calls
    [super().__init__()], which leaves one chain.  [run] consumes the
    generator [_traces] item by item: the code up to a [yield] runs when the
    loop of [run] asks for the next item, and the item is filed before the
    generator goes on. *)
Module TracePredictive.

(** [TracePredictive.__init__]: the store part of the new object. *)
Definition __init__ : TracePosterior := __init__ 1.

Section generator.
Context {Args : Type} `{Engine Args}.

(** The code of [_traces] before its loop (lines 171-172), run when the first
    item is asked for. *)
Definition start (args : Args) : M (world Args) unit :=
  p ← in_posterior get;
  if decide (exec_traces p = []) then posterior_run args else mret tt.

(** One round of the loop of [_traces] up to its [yield] (lines 174-176): the
    value handed to the consumer. *)
Definition next_item (draws : nat → Z) (args : Args) (i : nat)
  : M (world Args) yielded :=
  p ← in_posterior get;
  model_trace ← in_objects (__call__ p (draws i));
  model_trace ← in_objects (deref model_trace);
  replayed_trace ← in_objects (alloc (replay_get_trace args i model_trace));
  mret (Triple replayed_trace 0%Qc 0).

Definition on_world {A} (m : M (world Args) A) : M (world Args * TracePosterior) A :=
  λ s, let '(r, w) := m s.1 in (r, (w, s.2)).

Definition on_self {A} (m : M TracePosterior A) : M (world Args * TracePosterior) A :=
  λ s, let '(r, self) := m s.2 in (r, (s.1, self)).

(** [TracePosterior.run] on a [TracePredictive] object: the state is the world
    of the generator together with the store [self]. *)
Definition run (num_samples : Z) (draws : nat → Z) (args : Args)
  : M (world Args * TracePosterior) unit :=
  on_self _reset;;
  on_world (start args);;
  for_enumerate (λ i _,
      vals ← on_world (next_item draws args i);
      on_self (run_body i vals))
    0 (replicate (Z.to_nat num_samples) tt);;
  on_self build_categorical.
End generator.
End TracePredictive.

(** ** More vocabulary *)

(** The values of [site] in the stored records, in the order of storing. *)
Definition site_rows (h : heap) (st : TracePosterior) (site : string) : list tensor :=
  omap (λ l, value <$> cells h l !! site) (exec_traces st).

(** The chain-major array of a site: for every chain, in order, the values of
    the site in the samples of that chain, in the order of its index list. *)
Definition chain_major (h : heap) (st : TracePosterior) (site : string) : tensor :=
  Stack ((λ idxs, Stack (omap (site_rows h st site !!.) idxs)) <$> idxs_by_chain st).

(** The rows, out of one row per yielded item, of the items that [run] files
    under chain [c] of [k], in the order in which the items were yielded. *)
Definition rows_of_chain {A} (k c : nat) (chain_ids : list Z) (rows : list A) : list A :=
  (filter (λ zx, norm_index k zx.1 = Some c) (zip chain_ids rows)).*2.

(** For every chain, in order, its rows in the order of yielding. *)
Definition yield_order (k : nat) (chain_ids : list Z) (rows : list tensor) : list tensor :=
  (λ c, Stack (rows_of_chain k c chain_ids rows)) <$> seq 0 k.

(** * Properties *)

(** ** Python indexing *)

Lemma norm_index_lt len i c : norm_index len i = Some c → (c < len)%nat.
Proof. unfold norm_index. repeat case_decide; intros; simplify_eq; lia. Qed.

Lemma norm_index_nonneg len i :
  0 ≤ i < Z.of_nat len → norm_index len i = Some (Z.to_nat i).
Proof. intros. unfold norm_index. by rewrite decide_True. Qed.

Lemma norm_index_neg len i :
  - Z.of_nat len ≤ i < 0 → norm_index len i = Some (Z.to_nat (Z.of_nat len + i)).
Proof.
  intros. unfold norm_index. rewrite decide_False by lia. by rewrite decide_True.
Qed.

Lemma norm_index_None len i :
  norm_index len i = None ↔ i < - Z.of_nat len ∨ Z.of_nat len ≤ i.
Proof. unfold norm_index. repeat case_decide; split; intros; try done; lia. Qed.

Lemma norm_index_is_Some len i :
  is_Some (norm_index len i) ↔ - Z.of_nat len ≤ i < Z.of_nat len.
Proof.
  rewrite <-not_eq_None_Some, norm_index_None. lia.
Qed.

Lemma getitem_nat {A} (l : list A) (i : nat) x :
  l !! i = Some x → getitem l (Z.of_nat i) = Ok x.
Proof.
  intros Hl. unfold getitem. rewrite norm_index_nonneg.
  - simpl. by rewrite Nat2Z.id, Hl.
  - apply lookup_lt_Some in Hl. lia.
Qed.

Lemma getitem_Ok {A} (l : list A) (i : Z) x :
  getitem l i = Ok x ↔ ∃ c, norm_index (length l) i = Some c ∧ l !! c = Some x.
Proof.
  unfold getitem. destruct (norm_index (length l) i) as [c|]; simpl.
  - destruct (l !! c) eqn:E; split; intros; simplify_eq; eauto.
    + destruct H as (? & ? & ?); simplify_eq. done.
    + destruct H as (? & ? & ?); simplify_eq.
  - split; [done|]. intros (? & ? & ?); done.
Qed.

(** ** The loop of [run] *)

Lemma for_enumerate_app {St A} (body : nat → A → M St unit) start l1 l2 s :
  for_enumerate body start (l1 ++ l2) s =
  match for_enumerate body start l1 s with
  | (Ok _, s') => for_enumerate body (start + length l1) l2 s'
  | (Raise e, s') => (Raise e, s')
  end.
Proof.
  revert start s. induction l1 as [|x l1 IH]; intros start s; simpl.
  - by rewrite Nat.add_0_r.
  - unfold mbind, M_bind. destruct (body start x s) as [[[]|e] s']; [|done].
    rewrite IH. by replace (S start + length l1)%nat with (start + S (length l1))%nat by lia.
Qed.

Lemma run_body_filed self start t c :
  norm_index (length (idxs_by_chain self)) t.2 = Some c →
  run_body start (of_triple t) self = (Ok tt, filed self start [t]).
Proof.
  intros Hc. destruct t as [[tr w] z]; simpl in *.
  unfold run_body, filed; simpl.
  unfold mbind, M_bind, mret, M_ret, append_idx; simpl. rewrite Hc. f_equal. f_equal.
  apply list_eq; intros j.
  rewrite list_lookup_imap, list_lookup_alter.
  destruct (decide (c = j)) as [->|Hne].
  - rewrite decide_True by done. by destruct (idxs_by_chain self !! j).
  - case_decide as Hj; [congruence|]. simpl.
    destruct (idxs_by_chain self !! j); simpl; [|done]. by rewrite app_nil_r.
Qed.

Lemma run_body_IndexError self start t :
  norm_index (length (idxs_by_chain self)) t.2 = None →
  run_body start (of_triple t) self =
    (Raise IndexError,
     {| num_chains := num_chains self;
        log_weights := log_weights self ++ [t.1.2];
        exec_traces := exec_traces self ++ [t.1.1];
        idxs_by_chain := idxs_by_chain self;
        _categorical := _categorical self |}).
Proof.
  intros Hc. destruct t as [[tr w] z]; simpl in *.
  unfold run_body; simpl.
  unfold mbind, M_bind, mret, M_ret, append_idx; simpl. by rewrite Hc.
Qed.

Lemma length_idxs_filed self start ts :
  length (idxs_by_chain (filed self start ts)) = length (idxs_by_chain self).
Proof. unfold filed; simpl. by rewrite length_imap. Qed.

Lemma filed_cons self start t ts :
  filed (filed self start [t]) (S start) ts = filed self start (t :: ts).
Proof.
  unfold filed; simpl. rewrite length_imap, <-!app_assoc. simpl. f_equal.
  apply list_eq; intros j. rewrite !list_lookup_imap.
  destruct (idxs_by_chain self !! j); simpl; [|done].
  by rewrite app_nil_r, <-app_assoc.
Qed.

Lemma for_enumerate_filed ts : ∀ start self,
  Forall (λ t, is_Some (norm_index (length (idxs_by_chain self)) t.2)) ts →
  for_enumerate run_body start (of_triple <$> ts) self = (Ok tt, filed self start ts).
Proof.
  induction ts as [|t ts IH]; intros start self Hall.
  - simpl. unfold mret, M_ret, filed; simpl. f_equal. destruct self; simpl.
    rewrite !app_nil_r. f_equal.
    apply list_eq; intros j. rewrite list_lookup_imap.
    destruct (_ !! j); simpl; [|done]. by rewrite app_nil_r.
  - apply Forall_cons in Hall as [[c Hc] Hall]. simpl.
    unfold mbind, M_bind. rewrite (run_body_filed _ _ _ c Hc).
    rewrite IH by (by rewrite length_idxs_filed).
    by rewrite filed_cons.
Qed.

(** A loop that completes has seen only full triples with chain ids that
    index [idxs_by_chain]. *)
Lemma for_enumerate_Ok_inv items : ∀ start self self',
  for_enumerate run_body start items self = (Ok tt, self') →
  ∃ ts, items = of_triple <$> ts ∧
        Forall (λ t, is_Some (norm_index (length (idxs_by_chain self)) t.2)) ts.
Proof.
  induction items as [|v items IH]; intros start self self' Hrun.
  - by exists [].
  - simpl in Hrun. unfold mbind, M_bind in Hrun.
    destruct v as [tr|tr w|tr w z]; try done.
    destruct (norm_index (length (idxs_by_chain self)) z) as [c|] eqn:Hc.
    + change (Triple tr w z) with (of_triple (tr, w, z)) in Hrun.
      rewrite (run_body_filed self start (tr, w, z) c Hc) in Hrun.
      apply IH in Hrun as (ts & -> & Hall). rewrite length_idxs_filed in Hall.
      exists ((tr, w, z) :: ts). split; [done|]. constructor; [|done]. simpl. eauto.
    + change (Triple tr w z) with (of_triple (tr, w, z)) in Hrun.
      by rewrite (run_body_IndexError self start (tr, w, z) Hc) in Hrun.
Qed.

(** ** [run] as a whole *)

Lemma imap_replicate_nil {A} (f : nat → list A) n :
  imap (λ c idxs, idxs ++ f c) (replicate n []) = f <$> seq 0 n.
Proof.
  apply list_eq; intros j. rewrite list_lookup_imap, list_lookup_fmap.
  destruct (decide (j < n)%nat) as [Hj|Hj].
  - rewrite lookup_replicate_2, lookup_seq_lt by done. done.
  - rewrite (proj1 (lookup_replicate_None _ _ _)), lookup_seq_ge by lia. done.
Qed.

Lemma filed_reset self ts :
  build_categorical (filed (snd (_reset self)) 0 ts) = (Ok tt, ready (num_chains self) ts).
Proof.
  unfold build_categorical, modify, filed, ready; simpl. f_equal. f_equal.
  rewrite length_replicate. apply imap_replicate_nil.
Qed.

Lemma run_ready ts self :
  Forall (λ t, accepted (num_chains self) t.2) ts →
  run (of_triple <$> ts) self = (Ok tt, ready (num_chains self) ts).
Proof.
  intros Hall. unfold run. unfold mbind at 1, M_bind at 1. simpl.
  unfold mbind, M_bind. rewrite for_enumerate_filed.
  - apply filed_reset.
  - simpl. by rewrite length_replicate.
Qed.

Lemma run_Ok_inv items self st :
  run items self = (Ok tt, st) →
  ∃ ts, items = of_triple <$> ts ∧ Forall (λ t, accepted (num_chains self) t.2) ts
        ∧ st = ready (num_chains self) ts.
Proof.
  intros Hrun. unfold run in Hrun. unfold mbind at 1, M_bind at 1 in Hrun.
  simpl in Hrun. unfold mbind, M_bind in Hrun.
  destruct (for_enumerate run_body 0 items _) as [[[]|e] s'] eqn:Hloop; [|done].
  pose proof Hloop as Hinv. apply for_enumerate_Ok_inv in Hinv as (ts & -> & Hall).
  simpl in Hall. rewrite length_replicate in Hall.
  exists ts. split; [done|]. split; [done|].
  pose proof (run_ready ts self Hall) as Hr. unfold run in Hr.
  unfold mbind at 1, M_bind at 1 in Hr. simpl in Hr. unfold mbind, M_bind in Hr.
  rewrite Hloop in Hr. congruence.
Qed.

(** The first chain id that indexes no chain stops the run with IndexError:
    the record and the log-weight of that item are already appended, no chain
    lists its position and no resampler is built. *)
Lemma run_IndexError ts bad rest self :
  Forall (λ t, accepted (num_chains self) t.2) ts →
  ¬ accepted (num_chains self) bad.2 →
  run ((of_triple <$> ts) ++ of_triple bad :: rest) self =
    (Raise IndexError,
     {| num_chains := num_chains self;
        log_weights := ts.*1.*2 ++ [bad.1.2];
        exec_traces := ts.*1.*1 ++ [bad.1.1];
        idxs_by_chain := idxs_by_chain (ready (num_chains self) ts);
        _categorical := None |}).
Proof.
  intros Hall Hbad. unfold run. unfold mbind at 1, M_bind at 1. simpl.
  unfold mbind, M_bind. rewrite for_enumerate_app, for_enumerate_filed
    by (simpl; by rewrite length_replicate).
  simpl. unfold mbind, M_bind. rewrite run_body_IndexError.
  - simpl. f_equal. f_equal. rewrite length_replicate. apply imap_replicate_nil.
  - rewrite length_idxs_filed. simpl. rewrite length_replicate.
    unfold accepted in Hbad. by apply eq_None_not_Some.
Qed.

(** ** The chain index lists *)

Lemma elem_of_positions k c cs : ∀ start p,
  p ∈ positions k c start cs ↔
  ∃ i z, p = (start + i)%nat ∧ cs !! i = Some z ∧ norm_index k z = Some c.
Proof.
  induction cs as [|z cs IH]; intros start p; simpl.
  - split; [by intros ?%elem_of_nil|]. by intros (i & z & _ & ? & _).
  - rewrite elem_of_app, IH. split.
    + intros [Hp|(i & z' & -> & Hi & Hz)].
      * case_decide as Hz; [|by apply elem_of_nil in Hp].
        apply list_elem_of_singleton in Hp as ->. exists 0%nat, z. split; [lia|done].
      * exists (S i), z'. split; [lia|done].
    + intros (i & z' & -> & Hi & Hz). destruct i as [|i]; simpl in Hi.
      * simplify_eq. left. rewrite decide_True by done.
        apply list_elem_of_singleton. lia.
      * right. exists i, z'. split; [lia|done].
Qed.

Lemma positions_ge k c cs start p : p ∈ positions k c start cs → (start ≤ p)%nat.
Proof. rewrite elem_of_positions. intros (i & z & -> & _). lia. Qed.

Lemma positions_StronglySorted k c cs : ∀ start,
  StronglySorted lt (positions k c start cs).
Proof.
  induction cs as [|z cs IH]; intros start; simpl; [constructor|].
  case_decide; simpl; [|done]. constructor; [done|].
  apply Forall_forall. intros p Hp%positions_ge. lia.
Qed.

Lemma StronglySorted_lt_NoDup (l : list nat) : StronglySorted lt l → NoDup l.
Proof.
  induction 1 as [|x l _ IH Hall]; constructor; [|done].
  intros Hx. rewrite Forall_forall in Hall. specialize (Hall _ Hx). lia.
Qed.

(** The positions of a chain read the items back in the order of yielding. *)
Lemma lookup_positions {A} k c (cs : list Z) : ∀ (pre xs : list A),
  length xs = length cs →
  (λ p, (pre ++ xs) !! p) <$> positions k c (length pre) cs =
  Some <$> (filter (λ zx, norm_index k zx.1 = Some c) (zip cs xs)).*2.
Proof.
  induction cs as [|z cs IH]; intros pre [|x xs] Hlen; simplify_eq/=; [done|].
  rewrite fmap_app. replace (S (length pre)) with (length (pre ++ [x]))
    by (rewrite length_app; simpl; lia).
  replace (pre ++ x :: xs) with ((pre ++ [x]) ++ xs) by (by rewrite <-app_assoc).
  rewrite IH by done. rewrite filter_cons. simpl.
  case_decide; simpl; [|done].
  f_equal. rewrite <-app_assoc. simpl. by rewrite list_lookup_middle.
Qed.

Lemma sum_list_alter_snoc (L : list (list nat)) c i :
  (c < length L)%nat →
  sum_list (length <$> alter (λ l, l ++ [i]) c L) = S (sum_list (length <$> L)).
Proof.
  revert c. induction L as [|l L IH]; intros c Hc; simpl in *; [lia|].
  destruct c as [|c]; simpl.
  - rewrite length_app. simpl. lia.
  - specialize (IH c ltac:(lia)). unfold alter, fmap in IH. rewrite IH. lia.
Qed.

Lemma idxs_filed_one self start t c :
  norm_index (length (idxs_by_chain self)) t.2 = Some c →
  idxs_by_chain (filed self start [t]) =
  alter (λ idxs, idxs ++ [start]) c (idxs_by_chain self).
Proof.
  intros Hc. unfold filed; simpl. apply list_eq; intros j.
  rewrite list_lookup_imap, list_lookup_alter, Hc.
  destruct (decide (c = j)) as [->|Hne].
  - rewrite decide_True by done. by destruct (idxs_by_chain self !! j).
  - case_decide as Hj; [congruence|].
    destruct (idxs_by_chain self !! j); simpl; [|done]. by rewrite !app_nil_r.
Qed.

Lemma sum_list_filed ts : ∀ self start,
  Forall (λ t, is_Some (norm_index (length (idxs_by_chain self)) t.2)) ts →
  sum_list (length <$> idxs_by_chain (filed self start ts)) =
  (sum_list (length <$> idxs_by_chain self) + length ts)%nat.
Proof.
  induction ts as [|t ts IH]; intros self start Hall.
  - unfold filed; simpl. rewrite Nat.add_0_r. f_equal. f_equal.
    apply list_eq; intros j. rewrite list_lookup_imap.
    destruct (_ !! j); simpl; [|done]. by rewrite app_nil_r.
  - apply Forall_cons in Hall as [[c Hc] Hall].
    rewrite <-filed_cons, IH by (by rewrite length_idxs_filed).
    rewrite (idxs_filed_one _ _ _ c Hc), sum_list_alter_snoc.
    + simpl. lia.
    + by eapply norm_index_lt.
Qed.

Lemma sum_list_ready nc ts :
  Forall (λ t, accepted nc t.2) ts →
  sum_list (length <$> idxs_by_chain (ready nc ts)) = length ts.
Proof.
  intros Hall. unfold ready; simpl.
  rewrite <-(imap_replicate_nil (λ c, positions (Z.to_nat nc) c 0 ts.*2)).
  pose proof (sum_list_filed ts
    {| num_chains := nc; log_weights := []; exec_traces := [];
       idxs_by_chain := replicate (Z.to_nat nc) []; _categorical := None |} 0) as Hsum.
  simpl in Hsum. rewrite length_replicate in Hsum. rewrite Hsum by done.
  clear. by induction (Z.to_nat nc) as [|n IH].
Qed.

Lemma lookup_idxs_ready nc ts c idxs :
  idxs_by_chain (ready nc ts) !! c = Some idxs ↔
  (c < Z.to_nat nc)%nat ∧ idxs = positions (Z.to_nat nc) c 0 ts.*2.
Proof.
  unfold ready; simpl. rewrite list_lookup_fmap. split.
  - destruct (seq _ _ !! c) as [c'|] eqn:Hc; simpl; [|done].
    apply lookup_seq in Hc as [-> ?]. intros; by simplify_eq.
  - intros [Hc ->]. by rewrite lookup_seq_lt.
Qed.

(** ** Pruning a copy *)

Lemma elem_of_names_of_kind k (tr : Trace) s :
  s ∈ names_of_kind k tr ↔ ∃ n, tr !! s = Some n ∧ kind n = k.
Proof.
  unfold names_of_kind. rewrite list_elem_of_fmap. split.
  - intros ([s' n] & -> & Hin). apply list_elem_of_filter in Hin as [Hk Hin].
    apply elem_of_map_to_list in Hin. eauto.
  - intros (n & Hs & Hk). exists (s, n). split; [done|].
    apply list_elem_of_filter. split; [done|]. by apply elem_of_map_to_list.
Qed.

Lemma lookup_foldl_delete (tr : Trace) names s :
  foldl (λ m name, delete name m) tr names !! s =
  if decide (s ∈ names) then None else tr !! s.
Proof.
  revert tr. induction names as [|name names IH]; intros tr; cbn [foldl].
  - case_decide as Hin; [by apply elem_of_nil in Hin|done].
  - rewrite IH. destruct (decide (s ∈ names)) as [Hin|Hnin].
    + rewrite decide_True; [done|]. by right.
    + destruct (decide (s = name)) as [->|Hne].
      * rewrite decide_True by left. apply lookup_delete_eq.
      * rewrite decide_False by (intros [?|?]%elem_of_cons; done).
        by apply lookup_delete_ne.
Qed.

Lemma foldl_delete_observation_nodes (tr : Trace) :
  foldl (λ m name, delete name m) tr (observation_nodes tr) = pruned tr.
Proof.
  apply map_eq; intros s. rewrite lookup_foldl_delete. unfold pruned.
  destruct (tr !! s) as [n|] eqn:Hs.
  - case_decide as Hin.
    + apply elem_of_names_of_kind in Hin as (n' & Hs' & Hk). simplify_eq.
      symmetry. apply map_lookup_filter_None. right. intros n'' ?. simplify_eq/=.
      by intros [].
    + symmetry. apply map_lookup_filter_Some. split; [done|]. simpl.
      intros Hk. apply Hin, elem_of_names_of_kind. eauto.
  - case_decide; symmetry; apply map_lookup_filter_None; left; done.
Qed.

Lemma for_each_remove_node l names : ∀ h,
  ∃ h', for_each (remove_node l) names h = (Ok tt, h') ∧ next h' = next h ∧
        cells h' l = foldl (λ m name, delete name m) (cells h l) names ∧
        ∀ l', l' ≠ l → cells h' l' = cells h l'.
Proof.
  induction names as [|name names IH]; intros h; simpl.
  - by exists h.
  - unfold mbind, M_bind, remove_node, modify.
    edestruct IH as (h' & -> & Hnext & Hl & Hother). exists h'.
    split; [done|]. simpl in *. split; [done|]. split.
    + by rewrite Hl, fn_lookup_insert.
    + intros l' Hne. rewrite Hother by done. by rewrite fn_lookup_insert_ne.
Qed.

(** What [__call__] does once the drawn index selects a stored record (lines
    97-100): a new object holds the pruned copy, nothing else changes. *)
Lemma call_select self random_idx h stored :
  selects self random_idx stored →
  ∃ h', __call__ self random_idx h = (Ok (next h), h') ∧
        cells h' (next h) = pruned (cells h stored) ∧
        next h' = S (next h) ∧
        ∀ l, l ≠ next h → cells h' l = cells h l.
Proof.
  intros (lw & idxs & p & Hcat & Hg & Hnc & Hidxs & Hp & Hstored). unfold __call__.
  unfold mbind, M_bind, lift_result, categorical_sample, divmod.
  rewrite Hcat, decide_True, decide_False by done.
  rewrite Hidxs, Hp, Hstored. unfold copy, deref, alloc, mbind, M_bind, mret, M_ret.
  simpl.
  edestruct (for_each_remove_node (next h) (observation_nodes
    (<[next h:=cells h stored]> (cells h) (next h)))) as (h' & -> & Hnext & Hl & Hother).
  exists h'. split; [done|]. simpl in *. rewrite !fn_lookup_insert in Hl.
  split; [by rewrite Hl, foldl_delete_observation_nodes|]. split; [done|].
  intros l Hne. rewrite Hother by done. by rewrite fn_lookup_insert_ne.
Qed.

(** Conversely, a call that returns went through every lookup. *)
Lemma call_Ok_inv self random_idx h l h' :
  __call__ self random_idx h = (Ok l, h') → ∃ stored, selects self random_idx stored.
Proof.
  unfold __call__, mbind, M_bind, lift_result, categorical_sample, divmod.
  destruct (_categorical self) as [lw|] eqn:Hcat; [|done].
  case_decide as Hg; [|done]. case_decide as Hnc; [done|].
  destruct (getitem (idxs_by_chain self) _) as [idxs|] eqn:Hidxs; [|done].
  destruct (getitem idxs _) as [p|] eqn:Hp; [|done].
  destruct (getitem (exec_traces self) _) as [stored|] eqn:Hstored; [|done].
  intros _. by exists stored, lw, idxs, p.
Qed.

Lemma selects_elem_of st g stored : selects st g stored → stored ∈ exec_traces st.
Proof.
  intros (lw & idxs & p & _ & _ & _ & _ & _ & Hst).
  apply getitem_Ok in Hst as (k & _ & Hk). by eapply list_elem_of_lookup_2.
Qed.

(** ** Claims about [run] *)

Lemma accepted_iff nc z :
  accepted nc z ↔ - Z.of_nat (Z.to_nat nc) ≤ z < Z.of_nat (Z.to_nat nc).
Proof. unfold accepted. apply norm_index_is_Some. Qed.

Lemma lookup_ready nc ts i tr w z :
  ts !! i = Some (tr, w, z) →
  exec_traces (ready nc ts) !! i = Some tr ∧ log_weights (ready nc ts) !! i = Some w.
Proof.
  intros Hi. unfold ready; simpl. rewrite !list_lookup_fmap, Hi. done.
Qed.

Lemma stored_at_ready nc ts i tr w z :
  ts !! i = Some (tr, w, z) → accepted nc z → stored_at (ready nc ts) i tr w z.
Proof.
  intros Hi [c Hc]. destruct (lookup_ready nc ts i tr w z Hi) as [Htr Hw].
  split; [done|]. split; [done|].
  exists (positions (Z.to_nat nc) c 0 ts.*2). split.
  - apply getitem_Ok. exists c. unfold ready at 1; simpl.
    rewrite length_fmap, length_seq. split; [done|].
    apply lookup_idxs_ready. split; [|done]. by eapply norm_index_lt.
  - apply elem_of_positions. exists i, z. split; [done|]. split; [|done].
    by rewrite list_lookup_fmap, Hi.
Qed.

Global Instance of_triple_inj : Inj (=) (=) of_triple.
Proof. intros [[??]?] [[??]?]; unfold of_triple; simpl; congruence. Qed.

Lemma run_triples_Ok_inv ts self st :
  run (of_triple <$> ts) self = (Ok tt, st) →
  Forall (λ t, accepted (num_chains self) t.2) ts ∧ st = ready (num_chains self) ts.
Proof.
  intros (ts' & Heq & Hall & ->)%run_Ok_inv.
  apply (inj (fmap of_triple)) in Heq as <-. done.
Qed.

Lemma comprehension_getitem {A} (rows : list A) idxs ys :
  (λ p, rows !! p) <$> idxs = Some <$> ys →
  comprehension (λ i, getitem rows (Z.of_nat i)) idxs = Ok ys.
Proof.
  revert ys. induction idxs as [|i idxs IH]; intros [|y ys] Heq; simplify_eq/=; [done|].
  rewrite (getitem_nat rows i y) by done. by rewrite (IH ys).
Qed.

(** After a successful run the chain index lists partition the positions of
    the samples. *)
Lemma run_Ok_partition items self st :
  run items self = (Ok tt, st) →
  sum_list (length <$> idxs_by_chain st) = length (exec_traces st) ∧
  ∀ p, (p < length (exec_traces st))%nat →
    ∃ c idxs, idxs_by_chain st !! c = Some idxs ∧ p ∈ idxs ∧ NoDup idxs ∧
      ∀ c' idxs', idxs_by_chain st !! c' = Some idxs' → p ∈ idxs' → c' = c.
Proof.
  intros (ts & -> & Hall & ->)%run_Ok_inv. split.
  - rewrite sum_list_ready by done. unfold ready; simpl. by rewrite !length_fmap.
  - intros p Hp. unfold ready in Hp; simpl in Hp. rewrite !length_fmap in Hp.
    destruct (lookup_lt_is_Some_2 ts p Hp) as [[[tr w] z] Ht].
    rewrite Forall_lookup in Hall. destruct (Hall _ _ Ht) as [c Hc]; simpl in Hc.
    exists c, (positions (Z.to_nat (num_chains self)) c 0 ts.*2).
    split; [|split; [|split]].
    + apply lookup_idxs_ready. split; [|done]. by eapply norm_index_lt.
    + apply elem_of_positions. exists p, z. by rewrite list_lookup_fmap, Ht.
    + apply StronglySorted_lt_NoDup, positions_StronglySorted.
    + intros c' idxs' [_ ->]%lookup_idxs_ready
        (i & z' & Hi & Hz' & Hc')%elem_of_positions.
      simpl in Hi. subst i. rewrite list_lookup_fmap, Ht in Hz'. simpl in Hz'.
      congruence.
Qed.

(** C8: after every successful run in which all yielded chain ids lie in
    [0, num_chains), the lengths of the chain index lists add up to the
    number of stored samples, and every position of the samples sequence is
    listed in exactly one chain's index list (and there only once). *)
Theorem run_chain_index_partition (ts : list (loc * Qc * Z)) (self st : TracePosterior) :
  run (of_triple <$> ts) self = (Ok tt, st) →
  Forall (λ t, 0 ≤ t.2 < num_chains self) ts →
  length (exec_traces st) = length ts ∧
  sum_list (length <$> idxs_by_chain st) = length (exec_traces st) ∧
  ∀ p, (p < length (exec_traces st))%nat →
    ∃ c idxs, idxs_by_chain st !! c = Some idxs ∧ p ∈ idxs ∧ NoDup idxs ∧
      ∀ c' idxs', idxs_by_chain st !! c' = Some idxs' → p ∈ idxs' → c' = c.
Proof.
  intros Hrun _. split.
  - apply run_Ok_inv in Hrun as (ts' & Heq & _ & ->).
    unfold ready; simpl. rewrite !length_fmap.
    apply (f_equal length) in Heq. by rewrite !length_fmap in Heq.
  - by eapply run_Ok_partition.
Qed.

Lemma in_range_accepted nc z : 0 ≤ z < nc → accepted nc z.
Proof. intros. apply accepted_iff. lia. Qed.

Lemma run_chain_index_partition_witness :
  let ts := [(0%nat, 0%Qc, 0); (1%nat, 0%Qc, 1); (2%nat, 0%Qc, 1)] in
  let st := ready 2 ts in
  length (exec_traces st) = 3%nat ∧
  sum_list (length <$> idxs_by_chain st) = length (exec_traces st) ∧
  ∀ p, (p < length (exec_traces st))%nat →
    ∃ c idxs, idxs_by_chain st !! c = Some idxs ∧ p ∈ idxs ∧ NoDup idxs ∧
      ∀ c' idxs', idxs_by_chain st !! c' = Some idxs' → p ∈ idxs' → c' = c.
Proof.
  apply (run_chain_index_partition
           [(0%nat, 0%Qc, 0); (1%nat, 0%Qc, 1); (2%nat, 0%Qc, 1)] (__init__ 2)).
  - reflexivity.
  - repeat constructor; simpl; lia.
Defined.

Lemma sampler_default_args_normalized items :
  sampler_default_args items = of_triple <$> (normalized <$> items).
Proof.
  unfold sampler_default_args. rewrite <-list_fmap_compose.
  apply list_fmap_ext. by intros _ [] _.
Qed.

(** C3, as the code has it: [run], fed with the generation procedure wrapped
    by [sampler_default_args], stores every yielded item as a full triple: a
    bare record with weight 1.0 under chain 0, a (record, weight) pair under
    chain 0, a full triple as it is.  The defaults are the wrapper's; [run]
    itself unpacks three values from whatever it is handed. *)
Theorem run_normalizes_items (items : list yielded) (self : TracePosterior) :
  1 ≤ num_chains self →
  (∀ tr w c, Triple tr w c ∈ items → 0 ≤ c < num_chains self) →
  ∃ st, run (sampler_default_args items) self = (Ok tt, st) ∧
    length (exec_traces st) = length items ∧
    length (log_weights st) = length items ∧
    (∀ i tr, items !! i = Some (Bare tr) → stored_at st i tr 1%Qc 0) ∧
    (∀ i tr w, items !! i = Some (Pair tr w) → stored_at st i tr w 0) ∧
    (∀ i tr w c, items !! i = Some (Triple tr w c) → stored_at st i tr w c).
Proof.
  intros Hnc Hrange.
  assert (Forall (λ t, accepted (num_chains self) t.2) (normalized <$> items)) as Hall.
  { apply Forall_fmap, Forall_forall. intros [tr|tr w|tr w c] Hin; simpl.
    - apply in_range_accepted. lia.
    - apply in_range_accepted. lia.
    - apply in_range_accepted. eauto. }
  exists (ready (num_chains self) (normalized <$> items)).
  rewrite sampler_default_args_normalized. split; [by apply run_ready|].
  unfold ready at 1 2; simpl. rewrite !length_fmap. split; [done|]. split; [done|].
  rewrite Forall_lookup in Hall.
  split; [|split].
  - intros i tr Hi. apply stored_at_ready.
    + by rewrite list_lookup_fmap, Hi.
    + apply (Hall i (tr, 1%Qc, 0)). by rewrite list_lookup_fmap, Hi.
  - intros i tr w Hi. apply stored_at_ready.
    + by rewrite list_lookup_fmap, Hi.
    + apply (Hall i (tr, w, 0)). by rewrite list_lookup_fmap, Hi.
  - intros i tr w c Hi. apply stored_at_ready.
    + by rewrite list_lookup_fmap, Hi.
    + apply (Hall i (tr, w, c)). by rewrite list_lookup_fmap, Hi.
Qed.

Lemma run_normalizes_items_witness :
  ∃ st, run (sampler_default_args [Bare 0%nat; Pair 1%nat 2%Qc; Triple 2%nat 0%Qc 1])
            (__init__ 2) = (Ok tt, st) ∧
    length (exec_traces st) = 3%nat ∧
    length (log_weights st) = 3%nat ∧
    (∀ i tr, [Bare 0%nat; Pair 1%nat 2%Qc; Triple 2%nat 0%Qc 1] !! i = Some (Bare tr) →
       stored_at st i tr 1%Qc 0) ∧
    (∀ i tr w, [Bare 0%nat; Pair 1%nat 2%Qc; Triple 2%nat 0%Qc 1] !! i = Some (Pair tr w) →
       stored_at st i tr w 0) ∧
    (∀ i tr w c, [Bare 0%nat; Pair 1%nat 2%Qc; Triple 2%nat 0%Qc 1] !! i
                 = Some (Triple tr w c) → stored_at st i tr w c).
Proof.
  apply (run_normalizes_items [Bare 0%nat; Pair 1%nat 2%Qc; Triple 2%nat 0%Qc 1]
                              (__init__ 2)).
  - simpl. lia.
  - intros tr w c Hin. simpl.
    repeat (apply elem_of_cons in Hin as [Hin|Hin]; [simplify_eq; lia|]).
    by apply elem_of_nil in Hin.
Defined.

(** C3 as stated fails: handed a (record, weight) pair by a generation
    procedure that is not wrapped, [run] on a store of one chain stores
    nothing under chain 0 and raises at the unpacking of line 113. *)
Lemma run_does_not_default_chain :
  run [Pair 0%nat 2%Qc] (__init__ 1) =
  (Raise (ValueError "not enough values to unpack (expected 3, got 2)"), __init__ 1).
Proof. vm_compute. reflexivity. Qed.

(** Unwrapped, [run] takes full triples only. *)
Lemma run_unwrapped_pair tr w self :
  fst (run [Pair tr w] self) =
  Raise (ValueError "not enough values to unpack (expected 3, got 2)").
Proof. reflexivity. Qed.

(** ** Chain ids that [run] rejects *)

Lemma Exists_first {A} (P : A → Prop) `{∀ x, Decision (P x)} (l : list A) :
  Exists P l → ∃ l1 x l2, l = l1 ++ x :: l2 ∧ Forall (λ y, ¬ P y) l1 ∧ P x.
Proof.
  induction l as [|y l IH]; intros Hex; [by apply Exists_nil in Hex|].
  destruct (decide (P y)) as [Hy|Hy].
  - by exists [], y, l.
  - apply Exists_cons in Hex as [?|Hex]; [done|].
    destruct (IH Hex) as (l1 & x & l2 & -> & Hl1 & Hx).
    exists (y :: l1), x, l2. split; [done|]. split; [by constructor|done].
Qed.

(** C4, as the code has it: an item whose chain id is at least [num_chains] or
    below [-num_chains] stops [run] with IndexError when it is taken in (its
    position is entered in no chain index list and no resampler is built);
    chain ids in [[-num_chains, 0)] are accepted and count from the last
    chain backwards. *)
Theorem run_rejects_chain_id (ts : list (loc * Qc * Z)) (self : TracePosterior) :
  0 ≤ num_chains self →
  (Exists (λ t, t.2 < - num_chains self ∨ num_chains self ≤ t.2) ts →
     ∃ s' n, run (of_triple <$> ts) self = (Raise IndexError, s') ∧
       _categorical s' = None ∧
       length (exec_traces s') = S n ∧
       sum_list (length <$> idxs_by_chain s') = n)
  ∧ (Forall (λ t, - num_chains self ≤ t.2 < num_chains self) ts →
     ∃ st, run (of_triple <$> ts) self = (Ok tt, st) ∧
       ∀ i tr w c, ts !! i = Some (tr, w, c) → c < 0 →
         stored_at st i tr w (num_chains self + c)).
Proof.
  intros Hnc. split.
  - intros (ts1 & bad & rest & -> & Hok & Hbad)%Exists_first; [|apply _].
    rewrite fmap_app, fmap_cons.
    eexists _, (length ts1). rewrite run_IndexError.
    + split; [done|]. simpl. split; [done|]. split.
      * rewrite length_app, !length_fmap. simpl. lia.
      * apply (sum_list_ready (num_chains self) ts1).
        eapply Forall_impl; [exact Hok|]. intros t Ht. apply accepted_iff.
        simpl in Ht. lia.
    + eapply Forall_impl; [exact Hok|]. intros t Ht. apply accepted_iff.
      simpl in Ht. lia.
    + rewrite accepted_iff. lia.
  - intros Hall.
    assert (Forall (λ t, accepted (num_chains self) t.2) ts) as Hacc.
    { eapply Forall_impl; [exact Hall|]. intros t Ht. apply accepted_iff.
      simpl in Ht. lia. }
    exists (ready (num_chains self) ts). split; [by apply run_ready|].
    intros i tr w c Hi Hneg. rewrite Forall_lookup in Hall.
    specialize (Hall _ _ Hi). simpl in Hall.
    destruct (stored_at_ready (num_chains self) ts i tr w c Hi) as (Htr & Hw & idxs & Hget & Hin).
    { apply accepted_iff. lia. }
    split; [done|]. split; [done|]. exists idxs. split; [|done].
    apply getitem_Ok in Hget as (k & Hk & Hlook). apply getitem_Ok. exists k.
    split; [|done]. unfold ready in *; simpl in *.
    rewrite length_fmap, length_seq in *.
    rewrite norm_index_neg in Hk by lia. rewrite norm_index_nonneg by lia.
    simplify_eq. f_equal. lia.
Qed.

Lemma run_rejects_chain_id_witness :
  (Exists (λ t : loc * Qc * Z, t.2 < - 2 ∨ 2 ≤ t.2) [(0%nat, 0%Qc, 0); (1%nat, 0%Qc, 2)] →
     ∃ s' n, run (of_triple <$> [(0%nat, 0%Qc, 0); (1%nat, 0%Qc, 2)]) (__init__ 2)
             = (Raise IndexError, s') ∧
       _categorical s' = None ∧
       length (exec_traces s') = S n ∧
       sum_list (length <$> idxs_by_chain s') = n)
  ∧ (Forall (λ t : loc * Qc * Z, - 2 ≤ t.2 < 2) [(0%nat, 0%Qc, 0); (1%nat, 0%Qc, 2)] →
     ∃ st, run (of_triple <$> [(0%nat, 0%Qc, 0); (1%nat, 0%Qc, 2)]) (__init__ 2)
           = (Ok tt, st) ∧
       ∀ i tr w c, [(0%nat, 0%Qc, 0); (1%nat, 0%Qc, 2)] !! i = Some (tr, w, c) → c < 0 →
         stored_at st i tr w (2 + c)).
Proof.
  apply (run_rejects_chain_id [(0%nat, 0%Qc, 0); (1%nat, 0%Qc, 2)] (__init__ 2)).
  simpl. lia.
Defined.

(** C4 as stated fails: a negative chain id is taken in, here under the last
    of two chains. *)
Lemma run_accepts_negative_chain_id :
  ¬ (0 ≤ -1 < num_chains (__init__ 2)) ∧
  run [Triple 7%nat 0%Qc (-1)] (__init__ 2) =
    (Ok tt, {| num_chains := 2; log_weights := [0%Qc]; exec_traces := [7%nat];
               idxs_by_chain := [[]; [0%nat]]; _categorical := Some [0%Qc] |}).
Proof. split; [simpl; lia|reflexivity]. Qed.

(** ** Claims about drawing *)

(** C1, as the code has it: on a ready store, [__call__] splits the drawn
    index [g] into [chain = g mod num_chains] and [within = g div num_chains]
    and, when [idxs_by_chain[chain]] has an entry at [within], returns (the
    pruned copy of) the record stored at position
    [idxs_by_chain[chain][within]] of [exec_traces]; that position always is
    one of [exec_traces]. *)
Theorem call_decomposes_index (items : list yielded) (self0 self : TracePosterior)
    (h : heap) (g : Z) (idxs : list nat) (p : nat) :
  run items self0 = (Ok tt, self) →
  0 ≤ g < Z.of_nat (length (log_weights self)) →
  idxs_by_chain self !! Z.to_nat (g `mod` num_chains self) = Some idxs →
  idxs !! Z.to_nat (g `div` num_chains self) = Some p →
  ∃ stored h', exec_traces self !! p = Some stored ∧
    __call__ self g h = (Ok (next h), h') ∧
    cells h' (next h) = pruned (cells h stored).
Proof.
  intros (ts & -> & Hall & ->)%run_Ok_inv Hg Hidxs Hp.
  pose proof Hidxs as [Hc ->]%lookup_idxs_ready. simpl in *.
  assert (0 < num_chains self0) as Hnc by lia.
  pose proof (Z.mod_pos_bound g (num_chains self0) Hnc) as Hmod.
  assert (0 ≤ g `div` num_chains self0) as Hdiv by (apply Z.div_pos; lia).
  pose proof (list_elem_of_lookup_2 _ _ _ Hp) as (i & z & Hi & Hz & _)%elem_of_positions.
  simpl in Hi. subst i. rewrite list_lookup_fmap in Hz.
  destruct (ts !! p) as [[[stored w] z']|] eqn:Ht; [|done].
  exists stored.
  edestruct (call_select (ready (num_chains self0) ts) g h stored) as (h' & Hcall & Hcell & _).
  - eexists _, _, p. split; [done|]. split; [done|]. split; [simpl; lia|].
    simpl num_chains. split; [|split].
    + rewrite <-(Z2Nat.id (g `mod` num_chains self0)) by lia. apply getitem_nat, Hidxs.
    + rewrite <-(Z2Nat.id (g `div` num_chains self0)) by lia. apply getitem_nat, Hp.
    + apply getitem_nat. apply (lookup_ready (num_chains self0) _ _ _ _ _ Ht).
  - exists h'. split; [|done]. apply (lookup_ready (num_chains self0) _ _ _ _ _ Ht).
Qed.

(** Without an entry at [idxs_by_chain[chain][within]] the call raises
    IndexError, as happens when the chains hold unequal numbers of samples. *)
Lemma call_IndexError_unbalanced :
  ∀ h, fst (__call__ (ready 2 [(0%nat, 0%Qc, 0); (1%nat, 0%Qc, 0)]) 1 h) = Raise IndexError.
Proof. reflexivity. Qed.

(** C1 as stated fails: a run over two items of chain 0 leaves a store of two
    chains ready, 1 is an index that its resampler can draw, and the call
    returns no record: chain 1 holds no sample, and line 96 raises
    IndexError. *)
Lemma call_on_ready_store_raises :
  let st := ready 2 [(0%nat, 0%Qc, 0); (1%nat, 0%Qc, 0)] in
  run [Triple 0%nat 0%Qc 0; Triple 1%nat 0%Qc 0] (__init__ 2) = (Ok tt, st) ∧
  categorical_sample (_categorical st) 1 = Ok 1 ∧
  __call__ st 1 sample_heap = (Raise IndexError, sample_heap).
Proof. vm_compute. repeat split. Qed.

Lemma observation_nodes_pruned tr : observation_nodes (pruned tr) = [].
Proof.
  apply elem_of_nil_inv. intros s (n & Hs & Hk)%elem_of_names_of_kind.
  apply map_lookup_filter_Some in Hs as [_ Hne]. done.
Qed.

Lemma lookup_pruned tr name n :
  tr !! name = Some n → kind n ≠ Observed → pruned tr !! name = Some n.
Proof. intros. by apply map_lookup_filter_Some. Qed.

Lemma lookup_pruned_observed tr name :
  name ∈ observation_nodes tr → pruned tr !! name = None.
Proof.
  intros (n & Hs & Hk)%elem_of_names_of_kind. apply map_lookup_filter_None.
  right. intros n' ?. simplify_eq/=. by intros [].
Qed.

Lemma stochastic_nodes_pruned tr name :
  name ∈ stochastic_nodes (pruned tr) ↔ name ∈ stochastic_nodes tr.
Proof.
  unfold stochastic_nodes. rewrite !elem_of_names_of_kind. split.
  - intros (n & [Hs _]%map_lookup_filter_Some & Hk). eauto.
  - intros (n & Hs & Hk). exists n. split; [|done].
    apply lookup_pruned; [done|]. by rewrite Hk.
Qed.

(** C2: on a ready store, what [__call__] returns is a copy of the selected
    stored record without any observation site and with every latent site
    (indeed every other site) as it was; it is a new object, and the stored
    record, like every other object, is left as it was. *)
Theorem call_returns_pruned_copy (items : list yielded) (self0 self : TracePosterior)
    (h h' : heap) (g : Z) (l : loc) :
  run items self0 = (Ok tt, self) →
  Forall (λ stored, (stored < next h)%nat) (exec_traces self) →
  __call__ self g h = (Ok l, h') →
  ∃ stored, stored ∈ exec_traces self ∧
    cells h' l = pruned (cells h stored) ∧
    (∀ name, name ∈ observation_nodes (cells h stored) → cells h' l !! name = None) ∧
    observation_nodes (cells h' l) = [] ∧
    (∀ name n, cells h stored !! name = Some n → kind n = Latent →
       cells h' l !! name = Some n) ∧
    (∀ name, (name ∈ stochastic_nodes (cells h' l) ↔
              name ∈ stochastic_nodes (cells h stored))) ∧
    (l ∉ exec_traces self) ∧
    cells h' stored = cells h stored ∧
    ∀ l', l' ≠ l → cells h' l' = cells h l'.
Proof.
  intros _ Hwf Hcall.
  pose proof Hcall as [stored Hsel]%call_Ok_inv.
  destruct (call_select self g h stored Hsel) as (h'' & Hcall' & Hcell & _ & Hother).
  rewrite Hcall in Hcall'. simplify_eq.
  pose proof (selects_elem_of _ _ _ Hsel) as Hk.
  rewrite Forall_forall in Hwf.
  exists stored. split; [done|]. rewrite Hcell.
  split; [done|]. split; [apply lookup_pruned_observed|].
  split; [apply observation_nodes_pruned|].
  split. { intros name n Hn Hlat. apply lookup_pruned; [done|]. by rewrite Hlat. }
  split; [apply stochastic_nodes_pruned|].
  split. { intros Hin%Hwf. lia. }
  split; [|done]. apply Hother. specialize (Hwf _ Hk). lia.
Qed.

Lemma call_decomposes_index_witness :
  ∃ stored h', exec_traces sample_store !! 3%nat = Some stored ∧
    __call__ sample_store 3 sample_heap = (Ok (next sample_heap), h') ∧
    cells h' (next sample_heap) = pruned (cells sample_heap stored).
Proof.
  apply (call_decomposes_index sample_items (__init__ 2) sample_store sample_heap 3
           [1%nat; 3%nat] 3).
  - reflexivity.
  - simpl. lia.
  - reflexivity.
  - reflexivity.
Defined.

Lemma call_returns_pruned_copy_witness :
  let h' := snd (__call__ sample_store 3 sample_heap) in
  ∃ stored, stored ∈ exec_traces sample_store ∧
    cells h' 4%nat = pruned (cells sample_heap stored) ∧
    (∀ name, name ∈ observation_nodes (cells sample_heap stored) →
       cells h' 4%nat !! name = None) ∧
    observation_nodes (cells h' 4%nat) = [] ∧
    (∀ name n, cells sample_heap stored !! name = Some n → kind n = Latent →
       cells h' 4%nat !! name = Some n) ∧
    (∀ name, (name ∈ stochastic_nodes (cells h' 4%nat) ↔
              name ∈ stochastic_nodes (cells sample_heap stored))) ∧
    (4%nat ∉ exec_traces sample_store) ∧
    cells h' stored = cells sample_heap stored ∧
    ∀ l', l' ≠ 4%nat → cells h' l' = cells sample_heap l'.
Proof.
  apply (call_returns_pruned_copy sample_items (__init__ 2) sample_store sample_heap
           (snd (__call__ sample_store 3 sample_heap)) 3 4).
  - reflexivity.
  - repeat constructor; simpl; lia.
  - reflexivity.
Defined.

(** ** Round-robin chains *)

Lemma positions_app k c cs1 cs2 : ∀ start,
  positions k c start (cs1 ++ cs2) =
  positions k c start cs1 ++ positions k c (start + length cs1) cs2.
Proof.
  induction cs1 as [|z cs1 IH]; intros start; simpl.
  - by rewrite Nat.add_0_r.
  - rewrite IH, <-app_assoc. do 3 f_equal. lia.
Qed.

Lemma round_robin_S k n :
  round_robin k (S n) = round_robin k n ++ [Z.of_nat (n `mod` k)].
Proof. unfold round_robin. by rewrite seq_S, fmap_app. Qed.

Lemma length_round_robin k n : length (round_robin k n) = n.
Proof. unfold round_robin. by rewrite length_fmap, length_seq. Qed.

Lemma positions_round_robin k c n : (c < k)%nat → ∀ w,
  positions k c 0 (round_robin k n) !! w =
  if decide (c + w * k < n)%nat then Some (c + w * k)%nat else None.
Proof.
  intros Hc. induction n as [|n IH]; intros w.
  - change (positions k c 0 (round_robin k 0)) with (@nil nat).
    rewrite lookup_nil. case_decide; [lia|done].
  - rewrite round_robin_S, positions_app, length_round_robin. simpl.
    rewrite app_nil_r.
    assert (norm_index k (Z.of_nat (n `mod` k)) = Some (n `mod` k)%nat) as ->.
    { rewrite norm_index_nonneg, Nat2Z.id; [done|].
      pose proof (Nat.mod_upper_bound n k). lia. }
    set (P := positions k c 0 (round_robin k n)) in *.
    assert (∀ w, (w < length P)%nat ↔ (c + w * k < n)%nat) as HL.
    { intros w'. rewrite <-lookup_lt_is_Some, IH.
      case_decide; split; intros Hw'; try done; try (by destruct Hw'); eauto. }
    pose proof (Nat.div_mod_eq n k) as Hdiv.
    assert (∀ w', ((c + w' * k) `mod` k = c)%nat) as Hmod.
    { intros w'. rewrite Nat.Div0.mod_add. by apply Nat.mod_small. }
    case_decide as Hn.
    + simplify_eq.
      assert (length P = n `div` k)%nat as HP.
      { destruct (decide (length P < n `div` k)%nat) as [Hlt|Hge].
        - pose proof (proj2 (HL (length P))) as Hx.
          assert (n `mod` k + length P * k < n)%nat by nia. lia.
        - destruct (decide (n `div` k < length P)%nat) as [Hlt|Hge']; [|lia].
          apply HL in Hlt. nia. }
      destruct (decide (w < length P)%nat) as [Hw|Hw].
      * rewrite lookup_app_l, IH by done. apply HL in Hw.
        rewrite !decide_True by lia. done.
      * rewrite lookup_app_r by lia. destruct (decide (w = length P)) as [->|Hne].
        -- rewrite Nat.sub_diag. simpl. rewrite decide_True by nia. f_equal. nia.
        -- rewrite decide_False by nia.
           destruct (w - length P)%nat as [|d] eqn:Hd; [lia|done].
    + rewrite app_nil_r, IH. repeat case_decide; try done; try lia.
      assert (c + w * k = n)%nat as Heq by lia.
      destruct Hn. f_equal. rewrite <-Heq. apply Hmod.
Qed.

(** When the chains are yielded round-robin, as the decomposition of the
    drawn index assumes, every drawn index selects the record at the drawn
    position. *)
Lemma selects_round_robin (ts : list (loc * Qc * Z)) (nc g : Z) :
  0 < nc →
  ts.*2 = round_robin (Z.to_nat nc) (length ts) →
  0 ≤ g < Z.of_nat (length ts) →
  ∃ stored, ts.*1.*1 !! Z.to_nat g = Some stored ∧ selects (ready nc ts) g stored.
Proof.
  intros Hnc Hrr Hg.
  destruct (lookup_lt_is_Some_2 ts.*1.*1 (Z.to_nat g)) as [stored Hst].
  { rewrite !length_fmap. lia. }
  exists stored. split; [done|].
  pose proof (Z.mod_pos_bound g nc Hnc) as Hmod.
  assert (0 ≤ g `div` nc) as Hdiv by (apply Z.div_pos; lia).
  pose proof (Z.div_mod g nc ltac:(lia)) as Hdm.
  exists ts.*1.*2, (positions (Z.to_nat nc) (Z.to_nat (g `mod` nc)) 0 ts.*2), (Z.to_nat g).
  split; [done|]. split; [by rewrite !length_fmap|]. split; [simpl; lia|].
  simpl num_chains. split; [|split].
  - rewrite <-(Z2Nat.id (g `mod` nc)) at 1 by lia. apply getitem_nat.
    apply lookup_idxs_ready. split; [lia|done].
  - rewrite <-(Z2Nat.id (g `div` nc)) by lia. apply getitem_nat.
    rewrite Hrr, positions_round_robin by lia.
    rewrite decide_True by nia. f_equal. nia.
  - by apply getitem_nat.
Qed.

(** ** The empirical marginal *)

Lemma comprehension_Ok {A B} (f : A → result B) l ys :
  comprehension f l = Ok ys ↔ Forall2 (λ x y, f x = Ok y) l ys.
Proof.
  revert ys. induction l as [|x l IH]; intros ys; simpl.
  - split; [intros; simplify_eq; constructor|by intros ->%Forall2_nil_inv_l].
  - destruct (f x) as [y|e] eqn:Hx.
    + destruct (comprehension f l) as [ys'|e] eqn:Hl.
      * split.
        -- intros; simplify_eq. constructor; [done|]. by apply IH.
        -- intros (y' & ys'' & Hy & Hys & ->)%Forall2_cons_inv_l.
           apply IH in Hys. congruence.
      * split; [done|]. intros (y' & ys'' & Hy & Hys & ->)%Forall2_cons_inv_l.
        apply IH in Hys. congruence.
    + split; [done|]. intros (y' & ys'' & Hy & Hys & ->)%Forall2_cons_inv_l.
      congruence.
Qed.

Lemma torch_stack_Ok ts t :
  torch_stack ts = Ok t ↔
  t = Stack ts ∧ ∃ t0 rest, ts = t0 :: rest ∧ Forall (λ t', shape t' = shape t0) rest.
Proof.
  unfold torch_stack. destruct ts as [|t0 rest].
  - split; [done|]. by intros [_ (? & ? & ? & _)].
  - case_decide as Hall.
    + split; [intros; simplify_eq; eauto|]. by intros [-> _].
    + split; [done|]. intros [_ (? & ? & ? & ?)]. by simplify_eq.
Qed.

Lemma torch_stack_Raise ts e : torch_stack ts = Raise e → e = RuntimeError.
Proof.
  unfold torch_stack. destruct ts; [congruence|]. case_decide; congruence.
Qed.


Lemma torch_stack_same_shape ts shp :
  ts ≠ [] → Forall (λ t', shape t' = shp) ts → torch_stack ts = Ok (Stack ts).
Proof.
  intros Hne Hall. destruct ts as [|t0 rest]; [done|]. unfold torch_stack.
  apply Forall_cons in Hall as [Ht0 Hall]. rewrite decide_True; [done|].
  eapply Forall_impl; [exact Hall|]. simpl. congruence.
Qed.

Lemma for_each_populate_Ok h sites pairs : ∀ e vs,
  Forall2 (λ (it : loc * Qc) v, marginal_value (cells h it.1) sites = Ok v) pairs vs →
  for_each (populate_one h sites) pairs e =
  (Ok tt, {| samples_buffer := samples_buffer e ++ vs;
             weights_buffer := weights_buffer e ++ pairs.*2 |}).
Proof.
  induction pairs as [|[l w] pairs IH]; intros e vs Hall.
  - apply Forall2_nil_inv_l in Hall as ->. simpl. unfold mret, M_ret.
    destruct e; simpl. by rewrite !app_nil_r.
  - apply Forall2_cons_inv_l in Hall as (v & vs' & Hv & Hall & ->). simpl in *.
    unfold mbind, M_bind, lift_result. rewrite Hv. unfold add, modify.
    rewrite (IH _ vs') by done. simpl. by rewrite <-!app_assoc.
Qed.

Lemma for_each_populate_inv h sites pairs : ∀ e r e',
  for_each (populate_one h sites) pairs e = (r, e') →
  match r with
  | Ok _ => ∃ vs, Forall2 (λ (it : loc * Qc) v,
                     marginal_value (cells h it.1) sites = Ok v) pairs vs
  | Raise x => ∃ it, it ∈ pairs ∧ marginal_value (cells h it.1) sites = Raise x
  end.
Proof.
  induction pairs as [|[l w] pairs IH]; intros e r e' Hrun; simpl in Hrun.
  - unfold mret, M_ret in Hrun. simplify_eq. by exists [].
  - unfold mbind, M_bind, lift_result in Hrun.
    destruct (marginal_value (cells h l) sites) as [v|x] eqn:Hv.
    + unfold add, modify in Hrun. apply IH in Hrun. destruct r as [[]|x].
      * destruct Hrun as [vs Hvs]. exists (v :: vs). by constructor.
      * destruct Hrun as (it & Hin & Hit). exists it. split; [by right|done].
    + simplify_eq. exists (l, w). split; [left|done].
Qed.

Lemma length_ready_weights items self st :
  run items self = (Ok tt, st) → length (log_weights st) = length (exec_traces st).
Proof.
  intros (ts & _ & _ & ->)%run_Ok_inv. unfold ready; simpl. by rewrite !length_fmap.
Qed.

Lemma EmpiricalMarginal_Ok h tp sites vs :
  length (log_weights tp) = length (exec_traces tp) →
  Forall2 (λ l v, marginal_value (cells h l) sites = Ok v) (exec_traces tp) vs →
  EmpiricalMarginal h tp (Some sites) =
  Ok {| samples_buffer := vs; weights_buffer := log_weights tp |}.
Proof.
  intros Hlen Hall. unfold EmpiricalMarginal, _populate_traces.
  rewrite (for_each_populate_Ok _ _ _ _ vs).
  - simpl. by rewrite snd_zip by lia.
  - rewrite <-(fst_zip (exec_traces tp) (log_weights tp)) in Hall by lia.
    by apply Forall2_fmap_l in Hall.
Qed.

Lemma EmpiricalMarginal_inv h tp sites r :
  length (log_weights tp) = length (exec_traces tp) →
  EmpiricalMarginal h tp (Some sites) = r →
  match r with
  | Ok em => weights_buffer em = log_weights tp ∧
             Forall2 (λ l v, marginal_value (cells h l) sites = Ok v)
                     (exec_traces tp) (samples_buffer em)
  | Raise x => ∃ l, l ∈ exec_traces tp ∧ marginal_value (cells h l) sites = Raise x
  end.
Proof.
  intros Hlen <-. unfold EmpiricalMarginal, _populate_traces.
  destruct (for_each _ _ _) as [[[]|x] e'] eqn:Hrun.
  - pose proof Hrun as [vs Hvs]%for_each_populate_inv.
    rewrite (for_each_populate_Ok _ _ _ _ vs Hvs) in Hrun. simplify_eq/=.
    rewrite snd_zip by lia. split; [done|].
    rewrite <-(fst_zip (exec_traces tp) (log_weights tp)) by lia.
    by apply Forall2_fmap_l.
  - apply for_each_populate_inv in Hrun as ([l w] & Hin & Hit).
    exists l. split; [|done]. apply elem_of_zip_l in Hin. done.
Qed.

Lemma marginal_value_many_inv tr sites v :
  marginal_value tr (ManySites sites) = Ok v →
  ∃ vs, Forall2 (λ site v', node_value tr site = Ok v') sites vs ∧ torch_stack vs = Ok v.
Proof.
  simpl. unfold mbind, result_bind.
  destruct (comprehension _ _) as [vs|] eqn:Hvs; [|done].
  intros Hst. exists vs. split; [|done]. by apply comprehension_Ok.
Qed.








(** Two scalar sites stack to values of shape [2]; a scalar and a vector do
    not stack. *)
Example marginal_two_scalars :
  EmpiricalMarginal sample_heap sample_store (Some (ManySites ["z"; "x"])) =
  Ok {| samples_buffer := replicate 4 (Stack [Scalar 1%Qc; Scalar 0%Qc]);
        weights_buffer := [0%Qc; 0%Qc; 0%Qc; 0%Qc] |}.
Proof. reflexivity. Qed.

Example marginal_shape_mismatch :
  EmpiricalMarginal
    {| cells := λ _, <["v" := mkNode (Stack [Scalar 1%Qc; Scalar 1%Qc]) Latent]> sample_trace;
       next := 4 |}
    sample_store (Some (ManySites ["z"; "v"])) = Raise RuntimeError.
Proof. reflexivity. Qed.

Example marginal_no_sites :
  EmpiricalMarginal sample_heap sample_store (Some (ManySites [])) = Raise RuntimeError.
Proof. reflexivity. Qed.

(** ** Diagnostics *)

Lemma foldl_Qc_max_ge ws : ∀ w,
  (w ≤ foldl Qc_max w ws)%Qc ∧ Forall (λ x, (x ≤ foldl Qc_max w ws)%Qc) ws.
Proof.
  induction ws as [|x ws IH]; intros w; simpl.
  - split; [apply Qcle_refl|constructor].
  - destruct (IH (Qc_max w x)) as [Hm Hall].
    assert (w ≤ Qc_max w x ∧ x ≤ Qc_max w x)%Qc as [Hw Hx].
    { unfold Qc_max. case_decide as Hlt.
      - split; [by apply Qclt_le_weak|apply Qcle_refl].
      - split; [apply Qcle_refl|by apply Qcnot_lt_le]. }
    split; [by eapply Qcle_trans|]. constructor; [by eapply Qcle_trans|done].
Qed.

Lemma foldl_Qc_min_le ws : ∀ w,
  (foldl Qc_min w ws ≤ w)%Qc ∧ Forall (λ x, (foldl Qc_min w ws ≤ x)%Qc) ws.
Proof.
  induction ws as [|x ws IH]; intros w; simpl.
  - split; [apply Qcle_refl|constructor].
  - destruct (IH (Qc_min w x)) as [Hm Hall].
    assert (Qc_min w x ≤ w ∧ Qc_min w x ≤ x)%Qc as [Hw Hx].
    { unfold Qc_min. case_decide as Hlt.
      - split; [by apply Qclt_le_weak|apply Qcle_refl].
      - split; [apply Qcle_refl|by apply Qcnot_lt_le]. }
    split; [by eapply Qcle_trans|]. constructor; [by eapply Qcle_trans|done].
Qed.

(** Weights that are not all equal have a maximum above their minimum. *)
Lemma tensor_max_min_nonuniform ws i j wi wj :
  ws !! i = Some wi → ws !! j = Some wj → wi ≠ wj →
  ∃ wmax wmin, tensor_max ws = Ok wmax ∧ tensor_min ws = Ok wmin ∧ wmax ≠ wmin.
Proof.
  intros Hi Hj Hne. destruct ws as [|w ws]; [done|].
  exists (foldl Qc_max w ws), (foldl Qc_min w ws). split; [done|]. split; [done|].
  intros Heq.
  assert (∀ k x, (w :: ws) !! k = Some x → x = foldl Qc_max w ws) as Hall.
  { intros k x Hk. destruct (foldl_Qc_max_ge ws w) as [Hw Hws].
    destruct (foldl_Qc_min_le ws w) as [Hw' Hws']. rewrite <-Heq in Hw', Hws'.
    destruct k as [|k]; simpl in Hk.
    - simplify_eq. by apply Qcle_antisym.
    - rewrite Forall_lookup in Hws, Hws'. apply Qcle_antisym; eauto. }
  rewrite (Hall _ _ Hi), (Hall _ _ Hj) in Hne. done.
Qed.

Lemma diagnostics_one_chain_given `{Stats} h self sites :
  num_chains self = 1 → diagnostics h self (Some sites) = Ok ∅.
Proof. intros Hnc. unfold diagnostics. simpl. by rewrite decide_True. Qed.

(** C6, as the code has it: with a single chain, [diagnostics] returns the
    empty mapping whenever [sites] is given, whatever the store holds; with
    [sites] omitted, on a store that holds no sample ([empty]) the assertion
    of line 130 fails before the number of chains is looked at. *)
Theorem diagnostics_single_chain `{Stats} (h : heap) (self empty : TracePosterior) :
  num_chains self = 1 →
  exec_traces empty = [] →
  (∀ sites, diagnostics h self (Some sites) = Ok ∅)
  ∧ diagnostics h empty None = Raise AssertionError.
Proof.
  intros Hnc Hnil. split.
  - intros sites. by apply diagnostics_one_chain_given.
  - unfold diagnostics. by rewrite Hnil.
Qed.

Lemma diagnostics_single_chain_witness :
  (∀ sites, @diagnostics sample_stats sample_heap
              (ready 1 [(0%nat, 0%Qc, 0); (1%nat, 1%Qc, 0)]) (Some sites) = Ok ∅)
  ∧ @diagnostics sample_stats sample_heap (__init__ 1) None = Raise AssertionError.
Proof.
  apply (@diagnostics_single_chain sample_stats sample_heap
           (ready 1 [(0%nat, 0%Qc, 0); (1%nat, 1%Qc, 0)]) (__init__ 1)).
  - reflexivity.
  - reflexivity.
Defined.

(** C6 as stated fails: a single-chain store without samples, asked for its
    diagnostics with [sites] omitted, raises. *)
Lemma diagnostics_empty_store_raises :
  num_chains (__init__ 1) = 1 ∧ exec_traces (__init__ 1) = [] ∧
  @diagnostics sample_stats sample_heap (__init__ 1) None = Raise AssertionError.
Proof. repeat split. Qed.

Lemma diagnostics_site_nonuniform `{Stats} h self site shp i j wi wj d :
  length (log_weights self) = length (exec_traces self) →
  (∀ l, l ∈ exec_traces self → ∃ n, cells h l !! site = Some n ∧ shape (value n) = shp) →
  log_weights self !! i = Some wi → log_weights self !! j = Some wj → wi ≠ wj →
  diagnostics_site h self site d =
  (Raise (ValueError "Diagnostics not implemented for differently weighted samples."), d).
Proof.
  intros Hlen Hall Hi Hj Hne.
  assert (∃ vs, Forall2 (λ l v, marginal_value (cells h l) (OneSite site) = Ok v)
                        (exec_traces self) vs ∧ Forall (λ v, shape v = shp) vs)
    as (vs & Hvs & Hshape).
  { clear Hlen Hi Hj. induction (exec_traces self) as [|l ls IH]; [by exists []|].
    destruct IH as (vs & Hvs & Hshape). { intros l' Hl'. apply Hall. by right. }
    destruct (Hall l) as (n & Hn & Hs); [left|].
    exists (value n :: vs). split; constructor; try done.
    simpl. unfold node_value. by rewrite Hn. }
  destruct (tensor_max_min_nonuniform _ _ _ _ _ Hi Hj Hne) as (wmax & wmin & Hmax & Hmin & Hd).
  assert (vs ≠ []) as Hvne.
  { intros ->. apply Forall2_nil_inv_r in Hvs. rewrite Hvs in Hlen.
    destruct (log_weights self); done. }
  unfold diagnostics_site, mbind at 1, M_bind at 1, lift_result at 1.
  rewrite (EmpiricalMarginal_Ok h self (OneSite site) vs Hlen Hvs). simpl.
  unfold get_samples_and_weights. simpl.
  rewrite (torch_stack_same_shape vs shp Hvne Hshape). simpl.
  unfold mbind, M_bind, lift_result. rewrite Hmax, Hmin.
  by rewrite decide_True.
Qed.

(** Whatever the site, non-uniform weights keep [diagnostics_site] from
    completing. *)
Lemma diagnostics_site_nonuniform_Raise `{Stats} h self site i j wi wj d :
  length (log_weights self) = length (exec_traces self) →
  log_weights self !! i = Some wi → log_weights self !! j = Some wj → wi ≠ wj →
  ∃ e, fst (diagnostics_site h self site d) = Raise e.
Proof.
  intros Hlen Hi Hj Hne.
  destruct (tensor_max_min_nonuniform _ _ _ _ _ Hi Hj Hne) as (wmax & wmin & Hmax & Hmin & Hd).
  unfold diagnostics_site, mbind at 1, M_bind at 1, lift_result at 1.
  destruct (EmpiricalMarginal h self (Some (OneSite site))) as [em|e] eqn:Hem;
    simpl; [|eauto].
  apply (EmpiricalMarginal_inv h self _ _ Hlen) in Hem as [Hw _].
  unfold get_samples_and_weights. destruct (torch_stack (samples_buffer em)); simpl; [|eauto].
  unfold mbind, M_bind, lift_result. rewrite Hw, Hmax, Hmin.
  rewrite decide_True by done. simpl. eauto.
Qed.

(** C5: on a store with more than one chain whose samples carry weights that
    are not all equal, [diagnostics] on a site whose marginal can be built
    raises the ValueError of line 138 and returns no number; whatever sites
    are requested, it does not return. *)
Theorem diagnostics_rejects_nonuniform_weights `{Stats} (items : list yielded)
    (self0 self : TracePosterior) (h : heap) (site : string) (rest : list string)
    (shp : list nat) (i j : nat) (wi wj : Qc) :
  run items self0 = (Ok tt, self) →
  1 < num_chains self →
  (∀ l, l ∈ exec_traces self → ∃ n, cells h l !! site = Some n ∧ shape (value n) = shp) →
  log_weights self !! i = Some wi → log_weights self !! j = Some wj → wi ≠ wj →
  diagnostics h self (Some (site :: rest)) =
    Raise (ValueError "Diagnostics not implemented for differently weighted samples.")
  ∧ ∀ sites, sites ≠ [] → ∃ e, diagnostics h self (Some sites) = Raise e.
Proof.
  intros Hlen%length_ready_weights Hnc Hall Hi Hj Hne. split.
  - unfold diagnostics. simpl. rewrite decide_False by lia. simpl.
    unfold mbind, M_bind.
    by rewrite (diagnostics_site_nonuniform h self site shp i j wi wj ∅).
  - intros [|s sites] Hsites; [done|].
    unfold diagnostics. simpl. rewrite decide_False by lia. simpl.
    unfold mbind, M_bind.
    destruct (diagnostics_site_nonuniform_Raise h self s i j wi wj ∅ Hlen Hi Hj Hne)
      as [e He].
    destruct (diagnostics_site h self s ∅) as [[[]|e'] d]; simpl in He; [done|].
    eauto.
Qed.

Lemma diagnostics_rejects_nonuniform_weights_witness :
  @diagnostics sample_stats sample_heap (snd (run weighted_items (__init__ 2)))
     (Some ["z"]) =
    Raise (ValueError "Diagnostics not implemented for differently weighted samples.")
  ∧ ∀ sites, sites ≠ [] →
      ∃ e, @diagnostics sample_stats sample_heap (snd (run weighted_items (__init__ 2)))
             (Some sites) = Raise e.
Proof.
  apply (@diagnostics_rejects_nonuniform_weights sample_stats weighted_items (__init__ 2)
           (snd (run weighted_items (__init__ 2))) sample_heap "z" [] [] 0 1
           (Qc_of_Z 0) (Qc_of_Z (-1))).
  - vm_compute. reflexivity.
  - simpl. lia.
  - intros l _. exists (mkNode (Scalar 1%Qc) Latent). split; reflexivity.
  - vm_compute. reflexivity.
  - vm_compute. reflexivity.
  - discriminate.
Defined.

(** With equal weights and chains of equal length the statistics are computed
    and keyed by the site. *)
Example diagnostics_two_chains :
  @diagnostics sample_stats sample_heap sample_store (Some ["z"]) =
  Ok {["z" := {| n_eff := Stack [Stack [Scalar 1%Qc; Scalar 1%Qc];
                                 Stack [Scalar 1%Qc; Scalar 1%Qc]];
                 r_hat := Stack [Stack [Scalar 1%Qc; Scalar 1%Qc];
                                 Stack [Scalar 1%Qc; Scalar 1%Qc]] |}]}.
Proof. vm_compute. reflexivity. Qed.

(** ** The per-chain samples of [diagnostics] *)

Lemma tensor_max_min_uniform ws w0 :
  ws ≠ [] → Forall (λ w, w = w0) ws → tensor_max ws = Ok w0 ∧ tensor_min ws = Ok w0.
Proof.
  intros Hne Hall. destruct ws as [|w ws]; [done|].
  apply Forall_cons in Hall as [-> Hall]. unfold tensor_max, tensor_min.
  clear Hne. induction Hall as [|w ws -> Hall IH]; [done|]. simpl.
  unfold Qc_max at 2, Qc_min at 2.
  rewrite !decide_False by (apply Qclt_irrefl || (intros Hlt; by apply Qclt_not_eq in Hlt)).
  done.
Qed.

Lemma shape_Stack_same l shp :
  l ≠ [] → Forall (λ t, shape t = shp) l → shape (Stack l) = length l :: shp.
Proof.
  intros Hne Hall. destruct l as [|t l]; [done|].
  apply Forall_cons in Hall as [<- _]. done.
Qed.

Lemma shape_Stack_length l : ∃ rest, shape (Stack l) = length l :: rest.
Proof. destruct l as [|t l]; simpl; eauto. Qed.

Lemma omap_lookup_valid {A} (rows : list A) idxs :
  Forall (λ p, (p < length rows)%nat) idxs →
  (λ p, rows !! p) <$> idxs = Some <$> omap (rows !!.) idxs ∧
  length (omap (rows !!.) idxs) = length idxs ∧
  Forall (λ v, v ∈ rows) (omap (rows !!.) idxs).
Proof.
  induction 1 as [|p idxs Hp Hall (IH1 & IH2 & IH3)]; [done|].
  destruct (lookup_lt_is_Some_2 rows p Hp) as [v Hv].
  rewrite fmap_cons, IH1. simpl. rewrite Hv. simpl.
  split; [done|]. split; [by f_equal|].
  constructor; [by eapply list_elem_of_lookup_2|done].
Qed.

Lemma comprehension_index_select rows (idxss : list (list nat)) :
  Forall (Forall (λ p, (p < length rows)%nat)) idxss →
  comprehension (index_select (Stack rows)) idxss =
  Ok ((λ idxs, Stack (omap (rows !!.) idxs)) <$> idxss).
Proof.
  induction 1 as [|idxs idxss Hidxs Hall IH]; [done|]. simpl.
  rewrite (comprehension_getitem rows idxs (omap (rows !!.) idxs)).
  - by rewrite IH.
  - by apply omap_lookup_valid.
Qed.

Lemma site_rows_present h st site shp :
  (∀ l, l ∈ exec_traces st → ∃ n, cells h l !! site = Some n ∧ shape (value n) = shp) →
  Forall2 (λ l v, marginal_value (cells h l) (OneSite site) = Ok v)
          (exec_traces st) (site_rows h st site) ∧
  Forall (λ v, shape v = shp) (site_rows h st site).
Proof.
  unfold site_rows. induction (exec_traces st) as [|l ls IH]; intros Hall; [done|].
  destruct (Hall l) as (n & Hn & Hs); [left|].
  destruct IH as [IH1 IH2]. { intros l' Hl'. apply Hall. by right. }
  simpl. rewrite Hn. simpl. split; constructor; try done.
  simpl. unfold node_value. by rewrite Hn.
Qed.

Lemma ready_idxs_valid items self0 self :
  run items self0 = (Ok tt, self) →
  Forall (Forall (λ p, (p < length (exec_traces self))%nat)) (idxs_by_chain self).
Proof.
  intros (ts & -> & Hall & ->)%run_Ok_inv.
  apply Forall_forall. intros idxs [c Hc]%list_elem_of_lookup.
  apply lookup_idxs_ready in Hc as [_ ->].
  apply Forall_forall. intros p (i & z & Hi & Hz & _)%elem_of_positions.
  apply lookup_lt_Some in Hz. unfold ready; simpl. rewrite !length_fmap in *.
  simpl in Hi. lia.
Qed.

Lemma index_select_positions k c (cs : list Z) (rows : list tensor) :
  length rows = length cs →
  index_select (Stack rows) (positions k c 0 cs) = Ok (Stack (rows_of_chain k c cs rows)).
Proof.
  intros Hlen. unfold index_select, rows_of_chain.
  rewrite (comprehension_getitem rows _
    (filter (λ zx, norm_index k zx.1 = Some c) (zip cs rows)).*2); [done|].
  by apply (lookup_positions _ _ cs [] rows).
Qed.

Lemma comprehension_fmap_Ok {A B C} (f : B → result C) (g : A → B) (r : A → C) l :
  (∀ x, x ∈ l → f (g x) = Ok (r x)) →
  comprehension f (g <$> l) = Ok (r <$> l).
Proof.
  induction l as [|x l IH]; intros Hall; [done|].
  rewrite !fmap_cons. cbn [comprehension].
  rewrite Hall by left. rewrite IH; [done|].
  intros y Hy. apply Hall. by right.
Qed.

(** Lines 139-143 on a ready store: the loop over [idxs_by_chain] collects,
    chain by chain, the rows of that chain's items in the order of yielding,
    and [torch.stack] is applied to these. *)
Lemma chain_samples_of_ready nc (ts : list (loc * Qc * Z)) (rows : list tensor) :
  length rows = length ts →
  chain_samples_of (Stack rows) (idxs_by_chain (ready nc ts)) =
  torch_stack (yield_order (Z.to_nat nc) ts.*2 rows).
Proof.
  intros Hlen. unfold chain_samples_of, yield_order. simpl idxs_by_chain.
  rewrite (comprehension_fmap_Ok _ _
    (λ c, Stack (rows_of_chain (Z.to_nat nc) c ts.*2 rows))); [done|].
  intros c _. apply index_select_positions. by rewrite length_fmap.
Qed.

(** C10: after every successful run each chain's index list is strictly
    increasing, and selecting the rows of a marginal by it yields the rows of
    that chain's samples in the order in which they were yielded.  So the
    chain-major array that [diagnostics] builds in lines 139-143 is the stack
    of the per-chain sequences in yield order, and the statistics that
    [diagnostics] enters for a site are those of that array. *)
Theorem chain_index_increasing `{Stats} (ts : list (loc * Qc * Z))
    (self st : TracePosterior) (h : heap) :
  run (of_triple <$> ts) self = (Ok tt, st) →
  (∀ c idxs, idxs_by_chain st !! c = Some idxs →
     StronglySorted lt idxs ∧
     ∀ rows : list tensor, length rows = length ts →
       index_select (Stack rows) idxs =
       Ok (Stack (rows_of_chain (Z.to_nat (num_chains self)) c ts.*2 rows))) ∧
  (∀ rows : list tensor, length rows = length ts →
     chain_samples_of (Stack rows) (idxs_by_chain st) =
     torch_stack (yield_order (Z.to_nat (num_chains self)) ts.*2 rows)) ∧
  (∀ site shp w0,
     num_chains self ≠ 1 → ts ≠ [] →
     Forall (λ w, w = w0) (log_weights st) →
     (∀ l, l ∈ exec_traces st → ∃ n, cells h l !! site = Some n ∧ shape (value n) = shp) →
     diagnostics h st (Some [site]) =
     match torch_stack (yield_order (Z.to_nat (num_chains self)) ts.*2
                          (site_rows h st site)) with
     | Ok chain_samples =>
         Ok {[ site := {| n_eff := effective_sample_size chain_samples;
                          r_hat := split_gelman_rubin chain_samples |} ]}
     | Raise e => Raise e
     end).
Proof.
  intros Hrun. pose proof Hrun as [Hall ->]%run_triples_Ok_inv.
  split; [|split].
  - intros c idxs [Hc ->]%lookup_idxs_ready. split.
    + apply positions_StronglySorted.
    + intros rows Hlen. apply index_select_positions. by rewrite length_fmap.
  - intros rows Hlen. by apply chain_samples_of_ready.
  - intros site shp w0 Hnc Hne Hw Hsite.
    pose proof (length_ready_weights _ _ _ Hrun) as Hlen.
    destruct (site_rows_present h _ site shp Hsite) as [Hrows Hshape].
    pose proof (Forall2_length _ _ _ Hrows) as Hlenrows.
    assert (length (site_rows h (ready (num_chains self) ts) site) = length ts) as Hlr.
    { rewrite <-Hlenrows. simpl. by rewrite !length_fmap. }
    set (st := ready (num_chains self) ts) in *.
    assert (site_rows h st site ≠ []) as Hrne.
    { intros Hnil. rewrite Hnil in Hlr. by destruct ts. }
    destruct (tensor_max_min_uniform (log_weights st) w0) as [Hmax Hmin]; [|done|].
    { unfold st. simpl. by destruct ts. }
    unfold diagnostics. simpl. rewrite decide_False by done.
    unfold mbind at 1, M_bind at 1.
    unfold diagnostics_site, mbind at 1, M_bind at 1, lift_result at 1.
    rewrite (EmpiricalMarginal_Ok h st (OneSite site) _ Hlen Hrows). simpl.
    unfold get_samples_and_weights. simpl.
    rewrite (torch_stack_same_shape _ shp Hrne Hshape). simpl.
    unfold mbind, M_bind, lift_result. simpl in Hmax, Hmin. rewrite Hmax, Hmin.
    rewrite decide_False by (by intros []).
    pose proof (chain_samples_of_ready (num_chains self) ts _ Hlr) as Hcs.
    cbn [idxs_by_chain ready] in Hcs. rewrite Hcs.
    by destruct (torch_stack _).
Qed.

Lemma chain_index_increasing_witness :
  let ts := [(0%nat, 0%Qc, 1); (1%nat, 0%Qc, 0); (2%nat, 0%Qc, 1);
             (3%nat, 0%Qc, 1); (4%nat, 0%Qc, 0); (5%nat, 0%Qc, 0)] in
  let st := ready 2 ts in
  (∀ c idxs, idxs_by_chain st !! c = Some idxs →
     StronglySorted lt idxs ∧
     ∀ rows : list tensor, length rows = length ts →
       index_select (Stack rows) idxs =
       Ok (Stack (rows_of_chain (Z.to_nat (num_chains (__init__ 2))) c ts.*2 rows))) ∧
  (∀ rows : list tensor, length rows = length ts →
     chain_samples_of (Stack rows) (idxs_by_chain st) =
     torch_stack (yield_order (Z.to_nat (num_chains (__init__ 2))) ts.*2 rows)) ∧
  (∀ site shp w0,
     num_chains (__init__ 2) ≠ 1 → ts ≠ [] →
     Forall (λ w, w = w0) (log_weights st) →
     (∀ l, l ∈ exec_traces st →
        ∃ n, cells sample_heap l !! site = Some n ∧ shape (value n) = shp) →
     @diagnostics sample_stats sample_heap st (Some [site]) =
     match torch_stack (yield_order (Z.to_nat (num_chains (__init__ 2))) ts.*2
                          (site_rows sample_heap st site)) with
     | Ok chain_samples =>
         Ok {[ site := {| n_eff := @effective_sample_size sample_stats chain_samples;
                          r_hat := @split_gelman_rubin sample_stats chain_samples |} ]}
     | Raise e => Raise e
     end).
Proof.
  apply (@chain_index_increasing sample_stats
           [(0%nat, 0%Qc, 1); (1%nat, 0%Qc, 0); (2%nat, 0%Qc, 1);
            (3%nat, 0%Qc, 1); (4%nat, 0%Qc, 0); (5%nat, 0%Qc, 0)]
           (__init__ 2)
           (ready 2 [(0%nat, 0%Qc, 1); (1%nat, 0%Qc, 0); (2%nat, 0%Qc, 1);
                     (3%nat, 0%Qc, 1); (4%nat, 0%Qc, 0); (5%nat, 0%Qc, 0)])
           sample_heap).
  vm_compute. reflexivity.
Defined.

(** Six items yielded under the chains 1, 0, 1, 1, 0, 0: the rows of chain 0
    and of chain 1, each in the order of yielding. *)
Example chain_samples_in_yield_order :
  let rows := (λ x, Scalar (Qc_of_Z x)) <$> [10; 11; 12; 13; 14; 15] in
  chain_samples_of (Stack rows)
    (idxs_by_chain (snd (run [Triple 0%nat 0%Qc 1; Triple 1%nat 0%Qc 0;
                              Triple 2%nat 0%Qc 1; Triple 3%nat 0%Qc 1;
                              Triple 4%nat 0%Qc 0; Triple 5%nat 0%Qc 0] (__init__ 2)))) =
  Ok (Stack [Stack ((λ x, Scalar (Qc_of_Z x)) <$> [11; 14; 15]);
             Stack ((λ x, Scalar (Qc_of_Z x)) <$> [10; 12; 13])]).
Proof. vm_compute. reflexivity. Qed.

(** ** The posterior-predictive generator *)

Section predictive_properties.
Context {Args : Type} `{Engine Args}.

(** One round: a draw, a replay, a yield; two new objects, the older ones
    untouched. *)
Lemma predictive_step_spec draws args i (w : world Args) stored :
  selects (posterior w) (draws i) stored →
  ∃ w1, predictive_step draws args i tt w = (Ok tt, w1) ∧
    posterior w1 = posterior w ∧ posterior_runs w1 = posterior_runs w ∧
    yields w1 = yields w ++ [Triple (S (next (objects w))) 0%Qc 0] ∧
    next (objects w1) = S (S (next (objects w))) ∧
    (∀ l, (l < next (objects w))%nat → cells (objects w1) l = cells (objects w) l) ∧
    cells (objects w1) (S (next (objects w))) =
      replay_get_trace args i (pruned (cells (objects w) stored)).
Proof.
  intros Hsel.
  destruct (call_select (posterior w) (draws i) (objects w) stored Hsel)
    as (h1 & Hcall & Hcell & Hnext & Hother).
  unfold predictive_step, mbind, M_bind, in_posterior, in_objects, get, yield, modify.
  simpl. rewrite Hcall. simpl. rewrite Hnext, Hcell.
  eexists. split; [done|]. simpl. repeat split.
  - intros l Hl. rewrite fn_lookup_insert_ne by lia. apply Hother. lia.
  - by rewrite fn_lookup_insert.
Qed.

Lemma predictive_loop draws args st n : ∀ start (w : world Args),
  posterior w = st →
  Forall (λ l, (l < next (objects w))%nat) (exec_traces st) →
  (∀ i, (start ≤ i < start + n)%nat → ∃ stored, selects st (draws i) stored) →
  ∃ w' ys,
    for_enumerate (predictive_step draws args) start (replicate n tt) w = (Ok tt, w') ∧
    posterior w' = st ∧ posterior_runs w' = posterior_runs w ∧
    yields w' = yields w ++ ys ∧ length ys = n ∧
    (next (objects w) ≤ next (objects w'))%nat ∧
    (∀ l, (l < next (objects w))%nat → cells (objects w') l = cells (objects w) l) ∧
    ∀ j, (j < n)%nat →
      ∃ l stored, ys !! j = Some (Triple l 0%Qc 0) ∧
        selects st (draws (start + j)%nat) stored ∧
        cells (objects w') l =
          replay_get_trace args (start + j)%nat (pruned (cells (objects w) stored)).
Proof.
  induction n as [|n IH]; intros start w Hst Hwf Hdraws.
  - exists w, []. simpl. unfold mret, M_ret. rewrite app_nil_r.
    repeat split; try done. intros j Hj. lia.
  - destruct (Hdraws start) as [stored Hsel]; [lia|]. rewrite <-Hst in Hsel.
    destruct (predictive_step_spec draws args start w stored Hsel)
      as (w1 & Hstep & Hp1 & Hr1 & Hy1 & Hn1 & Ho1 & Hc1).
    destruct (IH (S start) w1) as (w' & ys & Hloop & Hp' & Hr' & Hy' & Hlen & Hn' & Ho' & Hys).
    { by rewrite Hp1. }
    { eapply Forall_impl; [exact Hwf|]. simpl. intros l Hl. lia. }
    { intros i Hi. apply Hdraws. lia. }
    exists w', (Triple (S (next (objects w))) 0%Qc 0 :: ys).
    simpl. unfold mbind, M_bind. rewrite Hstep. split; [done|].
    split; [done|]. split; [congruence|].
    split; [by rewrite Hy', Hy1, <-app_assoc|].
    split; [simpl; lia|]. split; [lia|].
    split. { intros l Hl. rewrite Ho' by lia. by apply Ho1. }
    intros [|j] Hj.
    + exists (S (next (objects w))), stored. rewrite Nat.add_0_r.
      split; [done|]. split; [by rewrite <-Hst|]. rewrite Ho' by lia. done.
    + destruct (Hys j) as (l & stored' & Hl & Hsel' & Hcell); [lia|].
      exists l, stored'. replace (start + S j)%nat with (S start + j)%nat by lia.
      split; [done|]. split; [done|]. rewrite Hcell. f_equal. f_equal.
      apply Ho1. rewrite Forall_forall in Hwf. apply Hwf.
      by eapply selects_elem_of.
Qed.

(** C9, as the code has it: on an upstream store that has never been run,
    the generation procedure of the predictive generator runs the upstream
    store once, with the same arguments, and then, when that run succeeds and
    every draw selects a record, yields [num_samples] items; each is the
    replay of the model against a pruned draw from the upstream store, with
    log-weight 0 and chain id 0. *)
Theorem predictive_traces_yields (args : Args) (draws : nat → Z) (num_samples : Z)
    (w : world Args) (nc : Z) (st : TracePosterior) :
  posterior w = __init__ nc →
  posterior_runs w = [] →
  run (posterior_traces args (objects w)).1 (posterior w) = (Ok tt, st) →
  Forall (λ l, (l < next (posterior_traces args (objects w)).2)%nat) (exec_traces st) →
  (∀ i, (i < Z.to_nat num_samples)%nat → ∃ stored, selects st (draws i) stored) →
  ∃ w' ys,
    _traces num_samples draws args w = (Ok tt, w') ∧
    posterior_runs w' = [args] ∧
    posterior w' = st ∧
    yields w' = yields w ++ ys ∧
    length ys = Z.to_nat num_samples ∧
    ∀ j, (j < Z.to_nat num_samples)%nat →
      ∃ l stored, ys !! j = Some (Triple l 0%Qc 0) ∧
        selects st (draws j) stored ∧
        cells (objects w') l =
          replay_get_trace args j
            (pruned (cells (posterior_traces args (objects w)).2 stored)).
Proof.
  intros Hinit Hruns Hrun Hwf Hdraws.
  destruct (posterior_traces args (objects w)) as [traces h1] eqn:Htraces.
  simpl in Hrun, Hwf.
  set (w1 := {| objects := h1; posterior := st;
                posterior_runs := posterior_runs w ++ [args]; yields := yields w |}).
  destruct (predictive_loop draws args st (Z.to_nat num_samples) 0 w1)
    as (w' & ys & Hloop & Hp' & Hr' & Hy' & Hlen & _ & _ & Hys); try done.
  { intros i Hi. apply Hdraws. lia. }
  exists w', ys.
  unfold _traces. unfold mbind at 1, M_bind at 1, in_posterior at 1, get. simpl.
  rewrite decide_True by (by rewrite Hinit).
  unfold mbind at 1, M_bind at 1.
  unfold posterior_run, mbind, M_bind, modify, in_objects, in_posterior. simpl.
  rewrite Htraces. simpl. rewrite Hrun. fold w1. rewrite Hloop.
  split; [done|]. split; [by rewrite Hr'; simpl; rewrite Hruns|].
  split; [done|]. split; [done|]. split; [done|]. simpl. done.
Qed.
End predictive_properties.

Lemma predictive_traces_yields_witness :
  ∃ w' ys,
    @_traces unit sample_engine 3 (λ i, Z.of_nat i) tt sample_world = (Ok tt, w') ∧
    posterior_runs w' = [tt] ∧
    posterior w' = sample_store ∧
    yields w' = yields sample_world ++ ys ∧
    length ys = Z.to_nat 3 ∧
    ∀ j, (j < Z.to_nat 3)%nat →
      ∃ l stored, ys !! j = Some (Triple l 0%Qc 0) ∧
        selects sample_store (Z.of_nat j) stored ∧
        cells (objects w') l =
          @replay_get_trace unit sample_engine tt j
            (pruned (cells (@posterior_traces unit sample_engine tt
                              (objects sample_world)).2 stored)).
Proof.
  apply (@predictive_traces_yields unit sample_engine tt (λ i, Z.of_nat i) 3
           sample_world 2 sample_store).
  - reflexivity.
  - reflexivity.
  - reflexivity.
  - repeat constructor; simpl; lia.
  - intros i Hi. exists i.
    destruct i as [|[|[|i]]]; [| | |simpl in Hi; lia];
      eexists _, _, _; repeat split; vm_compute; congruence.
Defined.

(** C9 as stated fails: over an upstream store of two chains, never run,
    whose generation procedure files both its records under chain 0, the
    generator asked for one sample runs the upstream store once, which
    succeeds, and yields nothing: the draw of index 1 raises IndexError. *)
Lemma traces_yields_nothing :
  let w' := {| objects := sample_heap;
               posterior := ready 2 [(0%nat, 0%Qc, 0); (1%nat, 0%Qc, 0)];
               posterior_runs := [tt]; yields := [] |} in
  posterior sample_world = __init__ 2 ∧ posterior_runs sample_world = [] ∧
  categorical_sample (_categorical (posterior w')) 1 = Ok 1 ∧
  @_traces unit lopsided_engine 1 (λ _, 1) tt sample_world = (Raise IndexError, w').
Proof. vm_compute. repeat split. Qed.

(** The three records of the witness, as computed. *)
Example predictive_three_yields :
  yields (snd (@_traces unit sample_engine 3 (λ i, Z.of_nat i) tt sample_world)) =
  [Triple 5%nat 0%Qc 0; Triple 7%nat 0%Qc 0; Triple 9%nat 0%Qc 0].
Proof. vm_compute. reflexivity. Qed.

(** * Further properties *)

(** ** [run] and the state it leaves *)

Lemma for_enumerate_run_body_keeps items : ∀ start self r self',
  for_enumerate run_body start items self = (r, self') →
  num_chains self' = num_chains self ∧ _categorical self' = _categorical self.
Proof.
  induction items as [|v items IH]; intros start self r self' Hrun; simpl in Hrun.
  - unfold mret, M_ret in Hrun. by simplify_eq.
  - unfold mbind, M_bind in Hrun.
    destruct (run_body start v self) as [[[]|e] s1] eqn:Hbody.
    + apply IH in Hrun as [-> ->]. clear IH.
      destruct v as [tr|tr w|tr w z]; try done.
      unfold run_body, mbind, M_bind, append_idx in Hbody; simpl in Hbody.
      destruct (norm_index _ z); by simplify_eq.
    + simplify_eq. destruct v as [tr|tr w|tr w z].
      * unfold run_body, mbind, M_bind, unpack3, raise in Hbody. by simplify_eq.
      * unfold run_body, mbind, M_bind, unpack3, raise in Hbody. by simplify_eq.
      * unfold run_body, mbind, M_bind, append_idx in Hbody; simpl in Hbody.
        destruct (norm_index _ z); by simplify_eq.
Qed.

Lemma run_keeps_num_chains items self :
  num_chains (snd (run items self)) = num_chains self.
Proof.
  unfold run. unfold mbind at 1, M_bind at 1. simpl. unfold mbind, M_bind.
  destruct (for_enumerate run_body 0 items _) as [[[]|e] s1] eqn:Hloop;
    apply for_enumerate_run_body_keeps in Hloop as [Hnc _]; simpl; by rewrite Hnc.
Qed.

Lemma run_num_chains_only items self1 self2 :
  num_chains self1 = num_chains self2 → run items self1 = run items self2.
Proof.
  intros Hnc. unfold run. unfold mbind at 1 3, M_bind at 1 3. simpl. by rewrite Hnc.
Qed.

(** X1: [run] is re-entrant: it starts from [_reset], so what it returns and
    the store it leaves depend on the items and on [num_chains] only, whatever
    an earlier run, successful or not, has left. *)
Theorem run_discards_prior_state (items items' : list yielded) (self : TracePosterior) :
  run items (snd (run items' self)) = run items self.
Proof. apply run_num_chains_only, run_keeps_num_chains. Qed.

(** X2: an unwrapped (record, weight) pair stops [run] with ValueError at the
    unpacking of line 113, before anything of that item is appended: the
    store holds exactly the items before it, and no resampler. *)
Theorem run_pair_ValueError (ts : list (loc * Qc * Z)) (tr : loc) (w : Qc)
    (rest : list yielded) (self : TracePosterior) :
  Forall (λ t, accepted (num_chains self) t.2) ts →
  run ((of_triple <$> ts) ++ Pair tr w :: rest) self =
    (Raise (ValueError "not enough values to unpack (expected 3, got 2)"),
     {| num_chains := num_chains self;
        log_weights := ts.*1.*2;
        exec_traces := ts.*1.*1;
        idxs_by_chain := idxs_by_chain (ready (num_chains self) ts);
        _categorical := None |}).
Proof.
  intros Hall. unfold run. unfold mbind at 1, M_bind at 1. simpl.
  unfold mbind, M_bind. rewrite for_enumerate_app, for_enumerate_filed
    by (simpl; by rewrite length_replicate).
  simpl. unfold mbind, M_bind. simpl. f_equal.
  unfold filed; simpl. f_equal. rewrite length_replicate. apply imap_replicate_nil.
Qed.

Lemma run_pair_ValueError_witness :
  run ((of_triple <$> [(0%nat, 0%Qc, 0); (1%nat, 0%Qc, -1)]) ++ Pair 2%nat 0%Qc :: [])
      (__init__ 2) =
    (Raise (ValueError "not enough values to unpack (expected 3, got 2)"),
     {| num_chains := 2;
        log_weights := [0%Qc; 0%Qc];
        exec_traces := [0%nat; 1%nat];
        idxs_by_chain :=
          idxs_by_chain (ready 2 [(0%nat, 0%Qc, 0); (1%nat, 0%Qc, -1)]);
        _categorical := None |}).
Proof.
  apply (run_pair_ValueError [(0%nat, 0%Qc, 0); (1%nat, 0%Qc, -1)] 2%nat 0%Qc []
           (__init__ 2)).
  repeat constructor; simpl; vm_compute; eauto.
Defined.

(** X3: [__call__] is valid on a ready store only: on a store as constructed,
    and on the store a failed run leaves behind, there is no resampler and
    the call raises AttributeError without touching any object. *)
Theorem call_requires_ready (st : TracePosterior) (g : Z) (h : heap) :
  (∃ nc, st = __init__ nc) ∨ (∃ items self e, run items self = (Raise e, st)) →
  __call__ st g h = (Raise AttributeError, h).
Proof.
  intros Hst. assert (_categorical st = None) as Hcat.
  { destruct Hst as [[nc ->]|(items & self & e & Hrun)]; [done|].
    unfold run in Hrun. unfold mbind at 1, M_bind at 1 in Hrun. simpl in Hrun.
    unfold mbind, M_bind in Hrun.
    destruct (for_enumerate run_body 0 items _) as [[[]|e'] s1] eqn:Hloop; [done|].
    apply for_enumerate_run_body_keeps in Hloop as [_ Hc]. by simplify_eq. }
  unfold __call__, mbind, M_bind, lift_result, categorical_sample. by rewrite Hcat.
Qed.

Lemma call_requires_ready_witness :
  __call__ (__init__ 2) 0 sample_heap = (Raise AttributeError, sample_heap).
Proof.
  apply (call_requires_ready (__init__ 2) 0 sample_heap).
  left. by exists 2.
Defined.

(** X4: a call that raises has raised before the copy of line 97: the object
    store is exactly as before, and the exception is one of the lookups'. *)
Theorem call_failure_leaves_objects (self : TracePosterior) (g : Z) (h h' : heap)
    (e : exn) :
  __call__ self g h = (Raise e, h') →
  h' = h ∧ (e = AttributeError ∨ e = RuntimeError ∨ e = ZeroDivisionError ∨ e = IndexError).
Proof.
  unfold __call__, mbind, M_bind, lift_result, categorical_sample, divmod.
  destruct (_categorical self) as [lw|]; [|intros; simplify_eq; eauto].
  case_decide; [|intros; simplify_eq; eauto 6].
  case_decide; [intros; simplify_eq; eauto 6|].
  unfold getitem.
  destruct (norm_index (length (idxs_by_chain self)) _ ≫= _) as [idxs|];
    [|intros; simplify_eq; eauto 6].
  destruct (norm_index (length idxs) _ ≫= _) as [p|]; [|intros; simplify_eq; eauto 6].
  destruct (norm_index (length (exec_traces self)) _ ≫= _) as [stored|];
    [|intros; simplify_eq; eauto 6].
  unfold copy, deref, alloc, mbind, M_bind, mret, M_ret. simpl.
  match goal with |- context [for_each (remove_node ?l) ?names ?h0] =>
    destruct (for_each_remove_node l names h0) as (h1 & -> & _) end.
  done.
Qed.

Lemma call_failure_leaves_objects_witness :
  snd (__call__ (ready 2 [(0%nat, 0%Qc, 0); (1%nat, 0%Qc, 0)]) 1 sample_heap) = sample_heap ∧
  (IndexError = AttributeError ∨ IndexError = RuntimeError ∨
   IndexError = ZeroDivisionError ∨ IndexError = IndexError).
Proof.
  apply (call_failure_leaves_objects (ready 2 [(0%nat, 0%Qc, 0); (1%nat, 0%Qc, 0)]) 1
           sample_heap).
  reflexivity.
Defined.

(** ** The wrapper *)

(** X5: [sampler_default_args] yields one full triple for every item of the
    wrapped generator, in the same order, and wrapping twice changes nothing
    more. *)
Theorem sampler_default_args_idempotent (trace_gen : list yielded) :
  sampler_default_args (sampler_default_args trace_gen) = sampler_default_args trace_gen ∧
  length (sampler_default_args trace_gen) = length trace_gen ∧
  ∀ i v, trace_gen !! i = Some v →
    sampler_default_args trace_gen !! i = Some (of_triple (normalized v)).
Proof.
  split; [|split].
  - unfold sampler_default_args. rewrite <-list_fmap_compose.
    apply list_fmap_ext. by intros _ [] _.
  - unfold sampler_default_args. by rewrite length_fmap.
  - intros i v Hi. unfold sampler_default_args. rewrite list_lookup_fmap, Hi.
    by destruct v.
Qed.

Lemma Forall_or_first_rejected nc (ts : list (loc * Qc * Z)) :
  Forall (λ t, accepted nc t.2) ts ∨
  ∃ ts1 bad rest, ts = ts1 ++ bad :: rest ∧ Forall (λ t, accepted nc t.2) ts1 ∧
                  ¬ accepted nc bad.2.
Proof.
  induction ts as [|t ts IH]; [by left|].
  destruct (decide (accepted nc t.2)) as [Ht|Ht].
  - destruct IH as [Hall|(ts1 & bad & rest & -> & Hts1 & Hbad)].
    + left. by constructor.
    + right. exists (t :: ts1), bad, rest. split; [done|]. split; [by constructor|done].
  - right. by exists [], t, ts.
Qed.

(** X6: behind the wrapper the unpacking of line 113 cannot fail: [run]
    either succeeds or raises the IndexError of a chain id that indexes no
    chain. *)
Theorem run_wrapped_only_IndexError (trace_gen : list yielded) (self : TracePosterior) :
  fst (run (sampler_default_args trace_gen) self) = Ok tt ∨
  fst (run (sampler_default_args trace_gen) self) = Raise IndexError.
Proof.
  rewrite sampler_default_args_normalized.
  destruct (Forall_or_first_rejected (num_chains self) (normalized <$> trace_gen))
    as [Hall|(ts1 & bad & rest & -> & Hts1 & Hbad)].
  - left. by rewrite run_ready.
  - right. rewrite fmap_app, fmap_cons. by rewrite run_IndexError.
Qed.

(** X7: a successful run files under chain [c] exactly the positions of the
    items whose chain id indexes [c], there is one list per chain, the records
    and log-weights are stored in the order of yielding, and the resampler is
    built over exactly the stored log-weights. *)
Theorem run_files_by_chain (ts : list (loc * Qc * Z)) (self st : TracePosterior) :
  run (of_triple <$> ts) self = (Ok tt, st) →
  exec_traces st = ts.*1.*1 ∧ log_weights st = ts.*1.*2 ∧
  _categorical st = Some (log_weights st) ∧
  num_chains st = num_chains self ∧
  length (idxs_by_chain st) = Z.to_nat (num_chains self) ∧
  ∀ c idxs, idxs_by_chain st !! c = Some idxs →
    ∀ p, p ∈ idxs ↔
         ∃ t, ts !! p = Some t ∧ norm_index (Z.to_nat (num_chains self)) t.2 = Some c.
Proof.
  intros [Hall ->]%run_triples_Ok_inv.
  split; [done|]. split; [done|]. split; [done|]. split; [done|]. split.
  { unfold ready; simpl. by rewrite length_fmap, length_seq. }
  intros c idxs [_ ->]%lookup_idxs_ready p. split.
  - intros (i & z & Hi & Hz & Hc)%elem_of_positions. simpl in Hi. subst i.
    rewrite list_lookup_fmap in Hz. destruct (ts !! p) as [t|]; [|done].
    exists t. split; [done|]. by simplify_eq/=.
  - intros (t & Ht & Hc). apply elem_of_positions. exists p, t.2.
    split; [done|]. split; [|done]. by rewrite list_lookup_fmap, Ht.
Qed.

Lemma run_files_by_chain_witness :
  let ts := [(0%nat, 0%Qc, 0); (1%nat, 0%Qc, 1); (2%nat, 0%Qc, -1)] in
  let st := ready 2 ts in
  exec_traces st = ts.*1.*1 ∧ log_weights st = ts.*1.*2 ∧
  _categorical st = Some (log_weights st) ∧
  num_chains st = num_chains (__init__ 2) ∧
  length (idxs_by_chain st) = Z.to_nat (num_chains (__init__ 2)) ∧
  ∀ c idxs, idxs_by_chain st !! c = Some idxs →
    ∀ p, p ∈ idxs ↔
         ∃ t, ts !! p = Some t ∧
              norm_index (Z.to_nat (num_chains (__init__ 2))) t.2 = Some c.
Proof.
  apply (run_files_by_chain [(0%nat, 0%Qc, 0); (1%nat, 0%Qc, 1); (2%nat, 0%Qc, -1)]
           (__init__ 2)).
  reflexivity.
Defined.

(** X8: a store without chains ([num_chains <= 0]) takes in no item at all:
    its run succeeds only on a generator that yields nothing. *)
Theorem run_without_chains (items : list yielded) (self : TracePosterior) :
  num_chains self ≤ 0 →
  (fst (run items self) = Ok tt ↔ items = []).
Proof.
  intros Hnc. split.
  - destruct (run items self) as [r st] eqn:Hrun. simpl. intros ->.
    apply run_Ok_inv in Hrun as (ts & -> & Hall & _).
    destruct ts as [|t ts]; [done|]. apply Forall_cons in Hall as [Ht _].
    apply accepted_iff in Ht. lia.
  - by intros ->.
Qed.

Lemma run_without_chains_witness :
  fst (run [Triple 0%nat 0%Qc 0] (__init__ 0)) = Ok tt ↔ [Triple 0%nat 0%Qc 0] = [].
Proof.
  apply (run_without_chains [Triple 0%nat 0%Qc 0] (__init__ 0)).
  simpl. lia.
Defined.

(** ** Drawing *)

Lemma ready_nonempty_chains nc (ts : list (loc * Qc * Z)) :
  Forall (λ t, accepted nc t.2) ts → ts ≠ [] → 0 < nc.
Proof.
  intros Hall Hne. destruct ts as [|t ts]; [done|].
  apply Forall_cons in Hall as [Ht _]. apply accepted_iff in Ht. lia.
Qed.

(** X9: when the chains were yielded round-robin, item [i] under chain
    [i mod num_chains], every index [g] of the resampler's support makes
    [__call__] return the pruned copy of the record at position [g] itself:
    the draw is the categorical draw over the stored log-weights. *)
Theorem call_round_robin (ts : list (loc * Qc * Z)) (self0 self : TracePosterior)
    (h : heap) (g : Z) :
  run (of_triple <$> ts) self0 = (Ok tt, self) →
  (∀ i t, ts !! i = Some t → t.2 = Z.of_nat i `mod` num_chains self0) →
  0 ≤ g < Z.of_nat (length ts) →
  ∃ stored h', exec_traces self !! Z.to_nat g = Some stored ∧
    __call__ self g h = (Ok (next h), h') ∧
    cells h' (next h) = pruned (cells h stored).
Proof.
  intros [Hall ->]%run_triples_Ok_inv Hrr Hg.
  assert (0 < num_chains self0) as Hnc.
  { apply (ready_nonempty_chains _ ts Hall). intros ->. simpl in Hg. lia. }
  assert (ts.*2 = round_robin (Z.to_nat (num_chains self0)) (length ts)) as Hlist.
  { apply list_eq. intros i. unfold round_robin.
    rewrite !list_lookup_fmap.
    destruct (ts !! i) as [t|] eqn:Ht; simpl.
    - rewrite lookup_seq_lt by (by eapply lookup_lt_Some). simpl.
      rewrite (Hrr i t Ht), Nat2Z.inj_mod, Z2Nat.id by lia. done.
    - rewrite lookup_seq_ge; [done|]. by apply lookup_ge_None. }
  destruct (selects_round_robin ts (num_chains self0) g Hnc Hlist Hg)
    as (stored & Hst & Hsel).
  destruct (call_select _ g h stored Hsel) as (h' & Hcall & Hcell & _).
  by exists stored, h'.
Qed.

Lemma call_round_robin_witness :
  ∃ stored h',
    exec_traces sample_store !! Z.to_nat 2 = Some stored ∧
    __call__ sample_store 2 sample_heap = (Ok (next sample_heap), h') ∧
    cells h' (next sample_heap) = pruned (cells sample_heap stored).
Proof.
  apply (call_round_robin
           [(0%nat, 0%Qc, 0); (1%nat, 0%Qc, 1); (2%nat, 0%Qc, 0); (3%nat, 0%Qc, 1)]
           (__init__ 2) sample_store sample_heap 2).
  - reflexivity.
  - intros [|[|[|[|i]]]] t Ht; simplify_eq/=; reflexivity.
  - simpl. lia.
Defined.

(** X10: when the chain that [g mod num_chains] names holds no more than
    [g div num_chains] samples, as with chains of unequal length,
    [__call__] raises IndexError at line 96 and creates no object. *)
Theorem call_IndexError_short_chain (items : list yielded) (self0 self : TracePosterior)
    (h : heap) (g : Z) (idxs : list nat) :
  run items self0 = (Ok tt, self) →
  0 ≤ g < Z.of_nat (length (log_weights self)) →
  idxs_by_chain self !! Z.to_nat (g `mod` num_chains self) = Some idxs →
  Z.of_nat (length idxs) ≤ g `div` num_chains self →
  __call__ self g h = (Raise IndexError, h).
Proof.
  intros (ts & -> & Hall & ->)%run_Ok_inv Hg Hidxs Hlen.
  pose proof Hidxs as [Hc _]%lookup_idxs_ready. simpl in *.
  assert (0 < num_chains self0) as Hnc by lia.
  pose proof (Z.mod_pos_bound g (num_chains self0) Hnc) as Hmod.
  unfold __call__, mbind, M_bind, lift_result, categorical_sample, divmod. simpl.
  rewrite decide_True by done. rewrite decide_False by lia.
  rewrite <-(Z2Nat.id (g `mod` num_chains self0)) at 1 by lia.
  rewrite (getitem_nat _ _ idxs Hidxs).
  unfold getitem. rewrite (proj2 (norm_index_None _ _)) by lia. done.
Qed.

Lemma call_IndexError_short_chain_witness :
  __call__ (ready 2 [(0%nat, 0%Qc, 0); (1%nat, 0%Qc, 0)]) 1 sample_heap =
  (Raise IndexError, sample_heap).
Proof.
  apply (call_IndexError_short_chain [Triple 0%nat 0%Qc 0; Triple 1%nat 0%Qc 0]
           (__init__ 2) (ready 2 [(0%nat, 0%Qc, 0); (1%nat, 0%Qc, 0)]) sample_heap 1 []).
  - reflexivity.
  - simpl. lia.
  - reflexivity.
  - by vm_compute.
Defined.

Lemma pruned_no_observations (tr : Trace) :
  observation_nodes tr = [] → pruned tr = tr.
Proof.
  intros Hobs. unfold pruned. apply map_filter_id. intros name n Hn Hk. simpl in Hk.
  assert (name ∈ observation_nodes tr) as Hin
    by (apply elem_of_names_of_kind; eauto).
  rewrite Hobs in Hin. by apply elem_of_nil in Hin.
Qed.

(** X11: what one call returns is a new object each time: two successive
    calls return different objects, the second leaves the first as it was,
    and it is computed from the stored record as it was before either call;
    a record without observation sites comes back as an exact copy. *)
Theorem successive_calls_fresh (self : TracePosterior) (g1 g2 : Z) (h h1 h2 : heap)
    (l1 l2 : loc) :
  Forall (λ stored, (stored < next h)%nat) (exec_traces self) →
  __call__ self g1 h = (Ok l1, h1) →
  __call__ self g2 h1 = (Ok l2, h2) →
  l1 ≠ l2 ∧ cells h2 l1 = cells h1 l1 ∧
  ∃ stored, selects self g2 stored ∧ cells h2 l2 = pruned (cells h stored) ∧
    (observation_nodes (cells h stored) = [] → cells h2 l2 = cells h stored).
Proof.
  intros Hwf Hcall1 Hcall2.
  pose proof Hcall1 as [s1 Hsel1]%call_Ok_inv.
  pose proof Hcall2 as [s2 Hsel2]%call_Ok_inv.
  destruct (call_select self g1 h s1 Hsel1) as (h1' & Hc1 & Hcell1 & Hnext1 & Hother1).
  rewrite Hcall1 in Hc1. simplify_eq.
  destruct (call_select self g2 h1' s2 Hsel2) as (h2' & Hc2 & Hcell2 & Hnext2 & Hother2).
  rewrite Hcall2 in Hc2. simplify_eq.
  rewrite Hnext1. split; [lia|]. split; [apply Hother2; lia|].
  exists s2. split; [done|].
  assert (cells h1' s2 = cells h s2) as Hs2.
  { apply Hother1. rewrite Forall_forall in Hwf.
    pose proof (Hwf _ (selects_elem_of _ _ _ Hsel2)). lia. }
  rewrite Hnext1 in Hcell2. rewrite Hcell2, Hs2. split; [done|].
  apply pruned_no_observations.
Qed.

Lemma successive_calls_fresh_witness :
  let h1 := snd (__call__ sample_store 1 sample_heap) in
  let h2 := snd (__call__ sample_store 1 h1) in
  4%nat ≠ 5%nat ∧ cells h2 4%nat = cells h1 4%nat ∧
  ∃ stored, selects sample_store 1 stored ∧
    cells h2 5%nat = pruned (cells sample_heap stored) ∧
    (observation_nodes (cells sample_heap stored) = [] →
     cells h2 5%nat = cells sample_heap stored).
Proof.
  apply (successive_calls_fresh sample_store 1 1 sample_heap
           (snd (__call__ sample_store 1 sample_heap))
           (snd (__call__ sample_store 1 (snd (__call__ sample_store 1 sample_heap))))
           4 5).
  - repeat constructor; simpl; lia.
  - reflexivity.
  - reflexivity.
Defined.

(** ** The marginal *)

(** X12: a marginal built from a ready store pairs, for every stored record
    and in the order of storing, the value fetched from that record with the
    log-weight stored beside it; with [sites] omitted the value is that of
    the return-value site. *)
Theorem marginal_pairs_weights (items : list yielded) (self0 tp : TracePosterior)
    (h : heap) (sites : option site_selector) (em : Empirical) :
  run items self0 = (Ok tt, tp) →
  EmpiricalMarginal h tp sites = Ok em →
  weights_buffer em = log_weights tp ∧
  length (samples_buffer em) = length (exec_traces tp) ∧
  ∀ i l, exec_traces tp !! i = Some l →
    ∃ v, samples_buffer em !! i = Some v ∧
         marginal_value (cells h l) (default (OneSite "_RETURN") sites) = Ok v.
Proof.
  intros Hlen%length_ready_weights Hem.
  assert (EmpiricalMarginal h tp (Some (default (OneSite "_RETURN") sites)) = Ok em)
    as Hem' by (by destruct sites).
  apply (EmpiricalMarginal_inv h tp _ _ Hlen) in Hem' as [Hw Hvs].
  split; [done|]. split; [symmetry; by eapply Forall2_length|].
  intros i l Hl. destruct (Forall2_lookup_l _ _ _ _ _ Hvs Hl) as (v & Hv & Hval). eauto.
Qed.

Lemma marginal_pairs_weights_witness :
  let em := {| samples_buffer := replicate 4 (Scalar 0%Qc);
               weights_buffer := [0%Qc; 0%Qc; 0%Qc; 0%Qc] |} in
  weights_buffer em = log_weights sample_store ∧
  length (samples_buffer em) = length (exec_traces sample_store) ∧
  ∀ i l, exec_traces sample_store !! i = Some l →
    ∃ v, samples_buffer em !! i = Some v ∧
         marginal_value (cells sample_heap l) (default (OneSite "_RETURN") None) = Ok v.
Proof.
  apply (marginal_pairs_weights sample_items (__init__ 2) sample_store sample_heap None).
  - reflexivity.
  - reflexivity.
Defined.

Lemma EmpiricalMarginal_missing h tp site l :
  length (log_weights tp) = length (exec_traces tp) →
  l ∈ exec_traces tp → cells h l !! site = None →
  EmpiricalMarginal h tp (Some (OneSite site)) = Raise (KeyError site).
Proof.
  intros Hlen Hl Hnone.
  destruct (EmpiricalMarginal h tp (Some (OneSite site))) as [em|e] eqn:Hem.
  - apply (EmpiricalMarginal_inv h tp _ _ Hlen) in Hem as [_ Hvs].
    apply list_elem_of_lookup in Hl as [i Hi].
    destruct (Forall2_lookup_l _ _ _ _ _ Hvs Hi) as (v & _ & Hv).
    simpl in Hv. unfold node_value in Hv. by rewrite Hnone in Hv.
  - apply (EmpiricalMarginal_inv h tp _ _ Hlen) in Hem as (l' & _ & Hv).
    simpl in Hv. unfold node_value in Hv. destruct (cells h l' !! site); by simplify_eq.
Qed.

(** X13: a site that some stored record lacks makes the construction of its
    marginal raise KeyError for that site (the lookup of line 41); in a list
    of sites, a missing one makes the construction raise as well. *)
Theorem marginal_missing_site (items : list yielded) (self0 tp : TracePosterior)
    (h : heap) (site : string) (l : loc) :
  run items self0 = (Ok tt, tp) →
  l ∈ exec_traces tp → cells h l !! site = None →
  EmpiricalMarginal h tp (Some (OneSite site)) = Raise (KeyError site) ∧
  ∀ sites, site ∈ sites → ∃ e, EmpiricalMarginal h tp (Some (ManySites sites)) = Raise e.
Proof.
  intros Hlen%length_ready_weights Hl Hnone. split.
  - by eapply EmpiricalMarginal_missing.
  - intros sites Hs.
    destruct (EmpiricalMarginal h tp (Some (ManySites sites))) as [em|e] eqn:Hem; [|eauto].
    apply (EmpiricalMarginal_inv h tp _ _ Hlen) in Hem as [_ Hvs].
    apply list_elem_of_lookup in Hl as [i Hi].
    destruct (Forall2_lookup_l _ _ _ _ _ Hvs Hi) as (v & _ & Hv).
    apply marginal_value_many_inv in Hv as (vs & Hvs' & _).
    apply list_elem_of_lookup in Hs as [j Hj].
    destruct (Forall2_lookup_l _ _ _ _ _ Hvs' Hj) as (v' & _ & Hv').
    unfold node_value in Hv'. by rewrite Hnone in Hv'.
Qed.

Lemma marginal_missing_site_witness :
  EmpiricalMarginal sample_heap sample_store (Some (OneSite "w")) = Raise (KeyError "w") ∧
  ∀ sites, "w" ∈ sites →
    ∃ e, EmpiricalMarginal sample_heap sample_store (Some (ManySites sites)) = Raise e.
Proof.
  apply (marginal_missing_site sample_items (__init__ 2) sample_store sample_heap "w" 0).
  - reflexivity.
  - left.
  - reflexivity.
Defined.

(** ** Diagnostics on a well-formed store *)

(** What [diagnostics] enters for one site of a well-formed store. *)
Lemma diagnostics_site_Ok `{Stats} items self0 self h site shp w0 m d :
  run items self0 = (Ok tt, self) →
  idxs_by_chain self ≠ [] →
  Forall (λ w, w = w0) (log_weights self) →
  (0 < m)%nat → Forall (λ idxs, length idxs = m) (idxs_by_chain self) →
  (∀ l, l ∈ exec_traces self → ∃ n, cells h l !! site = Some n ∧ shape (value n) = shp) →
  diagnostics_site h self site d =
  (Ok tt, <[site := {| n_eff := effective_sample_size (chain_major h self site);
                       r_hat := split_gelman_rubin (chain_major h self site) |}]> d).
Proof.
  intros Hrun Hchains Hw Hm Hbal Hsite.
  pose proof (length_ready_weights _ _ _ Hrun) as Hlen.
  pose proof (ready_idxs_valid _ _ _ Hrun) as Hvalid.
  destruct (site_rows_present h self site shp Hsite) as [Hrows Hshape].
  pose proof (Forall2_length _ _ _ Hrows) as Hlenrows.
  assert (site_rows h self site ≠ []) as Hne.
  { destruct (idxs_by_chain self) as [|idxs idxss] eqn:Hi; [done|].
    apply Forall_cons in Hbal as [Hl _]. apply Forall_cons in Hvalid as [Hv _].
    destruct idxs as [|p idxs]; [simpl in Hl; lia|].
    apply Forall_cons in Hv as [Hp _]. intros Hnil. rewrite Hnil in Hlenrows.
    simpl in Hlenrows. lia. }
  destruct (tensor_max_min_uniform (log_weights self) w0) as [Hmax Hmin]; [|done|].
  { intros Hnil. rewrite Hnil in Hlen. simpl in Hlen.
    destruct (site_rows h self site); [done|]. simpl in Hlenrows. lia. }
  unfold diagnostics_site, mbind at 1, M_bind at 1, lift_result at 1.
  rewrite (EmpiricalMarginal_Ok h self (OneSite site) _ Hlen Hrows). simpl.
  unfold get_samples_and_weights. simpl.
  rewrite (torch_stack_same_shape _ shp Hne Hshape). simpl.
  unfold mbind, M_bind, lift_result. rewrite Hmax, Hmin.
  rewrite decide_False by (by intros []).
  unfold chain_samples_of. rewrite comprehension_index_select
    by (by rewrite <-Hlenrows). simpl.
  rewrite (torch_stack_same_shape _ (m :: shp)).
  - done.
  - by destruct (idxs_by_chain self).
  - apply Forall_fmap, Forall_forall. intros idxs Hin. simpl.
    rewrite Forall_forall in Hbal, Hvalid.
    destruct (omap_lookup_valid (site_rows h self site) idxs) as (_ & Hl & Hmem).
    { rewrite <-Hlenrows. by apply Hvalid. }
    rewrite <-(Hbal idxs Hin), <-Hl. apply shape_Stack_same.
    + intros Hnil. rewrite Hnil in Hl. simpl in Hl. specialize (Hbal idxs Hin). lia.
    + eapply Forall_impl; [exact Hmem|]. intros v Hv. simpl.
      rewrite Forall_forall in Hshape. by apply Hshape.
Qed.

(** X14: on a ready store with more than one chain, equal log-weights and
    chains of one non-zero length, [diagnostics] returns a mapping keyed by
    exactly the requested sites (each present in every record, with one value
    shape); the entry of a site holds the two statistics of its chain-major
    array, whose row [c] lists the site values of the samples of chain [c]
    in the order of [idxs_by_chain[c]]. *)
Theorem diagnostics_balanced `{Stats} (items : list yielded) (self0 self : TracePosterior)
    (h : heap) (sites : list string) (w0 : Qc) (m : nat) :
  run items self0 = (Ok tt, self) →
  1 < num_chains self →
  Forall (λ w, w = w0) (log_weights self) →
  (0 < m)%nat → Forall (λ idxs, length idxs = m) (idxs_by_chain self) →
  (∀ site, site ∈ sites →
     ∃ shp, ∀ l, l ∈ exec_traces self →
       ∃ n, cells h l !! site = Some n ∧ shape (value n) = shp) →
  ∃ d, diagnostics h self (Some sites) = Ok d ∧
    ∀ site, d !! site =
      if decide (site ∈ sites) then
        Some {| n_eff := effective_sample_size (chain_major h self site);
                r_hat := split_gelman_rubin (chain_major h self site) |}
      else None.
Proof.
  intros Hrun Hnc Hw Hm Hbal Hsites.
  assert (idxs_by_chain self ≠ []) as Hchains.
  { pose proof Hrun as (ts & _ & _ & ->)%run_Ok_inv. simpl in *.
    destruct (Z.to_nat (num_chains self0)) eqn:Hk; [lia|done]. }
  assert (∀ d0, ∃ d, for_each (diagnostics_site h self) sites d0 = (Ok tt, d) ∧
    ∀ site, d !! site =
      if decide (site ∈ sites) then
        Some {| n_eff := effective_sample_size (chain_major h self site);
                r_hat := split_gelman_rubin (chain_major h self site) |}
      else d0 !! site) as Hloop.
  { induction sites as [|s sites IH]; intros d0.
    - exists d0. split; [done|]. intros site. rewrite decide_False; [done|].
      apply not_elem_of_nil.
    - destruct (Hsites s) as [shp Hs]; [left|].
      destruct (IH ltac:(intros site Hin; apply Hsites; by right)
                   (<[s := {| n_eff := effective_sample_size (chain_major h self s);
                              r_hat := split_gelman_rubin (chain_major h self s) |}]> d0))
        as (d & Hd & Hlook).
      exists d. simpl. unfold mbind, M_bind.
      rewrite (diagnostics_site_Ok items self0 self h s shp w0 m d0) by done.
      split; [done|]. intros site. rewrite Hlook.
      destruct (decide (site ∈ sites)) as [Hin|Hnin].
      + rewrite decide_True; [done|]. by right.
      + destruct (decide (site = s)) as [->|Hne].
        * rewrite decide_True by left. by rewrite lookup_insert_eq.
        * rewrite decide_False by (intros [?|?]%elem_of_cons; done).
          by rewrite lookup_insert_ne.  }
  destruct (Hloop ∅) as (d & Hd & Hlook). exists d.
  unfold diagnostics. simpl. rewrite decide_False by lia. rewrite Hd.
  split; [done|]. intros site. rewrite Hlook. case_decide; [done|].
  apply lookup_empty.
Qed.

Lemma diagnostics_balanced_witness :
  ∃ d, @diagnostics sample_stats sample_heap sample_store (Some ["z"]) = Ok d ∧
    ∀ site, d !! site =
      if decide (site ∈ ["z"]) then
        Some {| n_eff := @effective_sample_size sample_stats
                           (chain_major sample_heap sample_store site);
                r_hat := @split_gelman_rubin sample_stats
                           (chain_major sample_heap sample_store site) |}
      else None.
Proof.
  apply (@diagnostics_balanced sample_stats sample_items (__init__ 2) sample_store
           sample_heap ["z"] 0%Qc 2).
  - reflexivity.
  - simpl. lia.
  - repeat constructor.
  - lia.
  - repeat constructor.
  - intros site Hsite. exists []. intros l _.
    apply list_elem_of_singleton in Hsite as ->.
    exists (mkNode (Scalar 1%Qc) Latent). split; reflexivity.
Defined.

(** X15: on a store with more than one chain, a requested site that some
    stored record lacks makes [diagnostics] raise KeyError for that site,
    whatever the weights. *)
Theorem diagnostics_missing_site `{Stats} (items : list yielded)
    (self0 self : TracePosterior) (h : heap) (site : string) (rest : list string)
    (l : loc) :
  run items self0 = (Ok tt, self) →
  1 < num_chains self →
  l ∈ exec_traces self → cells h l !! site = None →
  diagnostics h self (Some (site :: rest)) = Raise (KeyError site).
Proof.
  intros Hlen%length_ready_weights Hnc Hl Hnone.
  unfold diagnostics. simpl. rewrite decide_False by lia. simpl.
  unfold mbind, M_bind. unfold diagnostics_site, mbind at 1, M_bind at 1, lift_result at 1.
  by rewrite (EmpiricalMarginal_missing h self site l Hlen Hl Hnone).
Qed.

Lemma diagnostics_missing_site_witness :
  @diagnostics sample_stats sample_heap sample_store (Some ["w"; "z"]) =
  Raise (KeyError "w").
Proof.
  apply (@diagnostics_missing_site sample_stats sample_items (__init__ 2) sample_store
           sample_heap "w" ["z"] 0).
  - reflexivity.
  - simpl. lia.
  - left.
  - reflexivity.
Defined.

(** X16: chains that hold different numbers of samples cannot be stacked
    chain-major: with equal weights and the site present in every record,
    [diagnostics] raises the RuntimeError of [torch.stack] at line 143. *)
Theorem diagnostics_unequal_chains `{Stats} (items : list yielded)
    (self0 self : TracePosterior) (h : heap) (site : string) (rest : list string)
    (shp : list nat) (w0 : Qc) (c1 c2 : nat) (idxs1 idxs2 : list nat) :
  run items self0 = (Ok tt, self) →
  Forall (λ w, w = w0) (log_weights self) →
  (∀ l, l ∈ exec_traces self → ∃ n, cells h l !! site = Some n ∧ shape (value n) = shp) →
  idxs_by_chain self !! c1 = Some idxs1 → idxs_by_chain self !! c2 = Some idxs2 →
  length idxs1 ≠ length idxs2 →
  diagnostics h self (Some (site :: rest)) = Raise RuntimeError.
Proof.
  intros Hrun Hw Hsite Hc1 Hc2 Hne.
  pose proof (length_ready_weights _ _ _ Hrun) as Hlen.
  pose proof (ready_idxs_valid _ _ _ Hrun) as Hvalid.
  destruct (site_rows_present h self site shp Hsite) as [Hrows Hshape].
  pose proof (Forall2_length _ _ _ Hrows) as Hlenrows.
  assert (num_chains self ≠ 1) as Hnc.
  { pose proof Hrun as (ts & _ & _ & ->)%run_Ok_inv. simpl in *.
    apply lookup_idxs_ready in Hc1 as [Hl1 ->], Hc2 as [Hl2 ->].
    intros Heq. rewrite Heq in Hl1, Hl2.
    assert (c1 = 0%nat) as -> by lia. assert (c2 = 0%nat) as -> by lia. done. }
  assert (exec_traces self ≠ []) as Hne_tr.
  { intros Hnil. rewrite Forall_lookup in Hvalid.
    pose proof (Hvalid _ _ Hc1) as Hv1. pose proof (Hvalid _ _ Hc2) as Hv2.
    rewrite Hnil in Hv1, Hv2.
    destruct idxs1 as [|p ?]; [|apply Forall_cons in Hv1 as [? _]; simpl in *; lia].
    destruct idxs2 as [|p ?]; [done|apply Forall_cons in Hv2 as [? _]; simpl in *; lia]. }
  assert (site_rows h self site ≠ []) as Hne_rows.
  { intros Hnil. rewrite Hnil in Hlenrows. by destruct (exec_traces self). }
  destruct (tensor_max_min_uniform (log_weights self) w0) as [Hmax Hmin]; [|done|].
  { intros Hnil. rewrite Hnil in Hlen. by destruct (exec_traces self). }
  unfold diagnostics. simpl. rewrite decide_False by done. simpl.
  unfold mbind, M_bind. unfold diagnostics_site, mbind at 1, M_bind at 1, lift_result at 1.
  rewrite (EmpiricalMarginal_Ok h self (OneSite site) _ Hlen Hrows). simpl.
  unfold get_samples_and_weights. simpl.
  rewrite (torch_stack_same_shape _ shp Hne_rows Hshape). simpl.
  unfold mbind, M_bind, lift_result. rewrite Hmax, Hmin.
  rewrite decide_False by (by intros []).
  unfold chain_samples_of. rewrite comprehension_index_select
    by (by rewrite <-Hlenrows). simpl.
  destruct (torch_stack _) as [t|e] eqn:Hstack; [|by apply torch_stack_Raise in Hstack as ->].
  exfalso. apply torch_stack_Ok in Hstack as [_ (t0 & tl & Heq & Hall)].
  assert (∀ c idxs, idxs_by_chain self !! c = Some idxs →
            ∃ tail, shape t0 = length idxs :: tail) as Hsame.
  { intros c idxs Hc.
    destruct (omap_lookup_valid (site_rows h self site) idxs) as (_ & Hl & _).
    { rewrite <-Hlenrows. rewrite Forall_lookup in Hvalid. by eapply Hvalid. }
    assert (((λ idxs, Stack (omap (site_rows h self site !!.) idxs)) <$> idxs_by_chain self)
              !! c = Some (Stack (omap (site_rows h self site !!.) idxs))) as Hlook
      by (by rewrite list_lookup_fmap, Hc).
    rewrite Heq in Hlook.
    destruct (shape_Stack_length (omap (site_rows h self site !!.) idxs)) as [tail Htail].
    rewrite Hl in Htail. exists tail. rewrite <-Htail.
    destruct c as [|c]; simpl in Hlook; [by simplify_eq|].
    rewrite Forall_lookup in Hall. symmetry. by apply (Hall c). }
  destruct (Hsame _ _ Hc1) as [tail1 H1]. destruct (Hsame _ _ Hc2) as [tail2 H2].
  rewrite H1 in H2. by simplify_eq.
Qed.

Lemma diagnostics_unequal_chains_witness :
  @diagnostics sample_stats sample_heap
     (ready 2 [(0%nat, 0%Qc, 0); (1%nat, 0%Qc, 1); (2%nat, 0%Qc, 0)]) (Some ["z"]) =
  Raise RuntimeError.
Proof.
  apply (@diagnostics_unequal_chains sample_stats
           [Triple 0%nat 0%Qc 0; Triple 1%nat 0%Qc 1; Triple 2%nat 0%Qc 0] (__init__ 2)
           (ready 2 [(0%nat, 0%Qc, 0); (1%nat, 0%Qc, 1); (2%nat, 0%Qc, 0)])
           sample_heap "z" [] [] 0%Qc 0 1 [0%nat; 2%nat] [1%nat]).
  - reflexivity.
  - repeat constructor.
  - intros l _. exists (mkNode (Scalar 1%Qc) Latent). split; reflexivity.
  - reflexivity.
  - reflexivity.
  - simpl. lia.
Defined.


(** ** The generator of the posterior-predictive store *)

Section generator_properties.
Context {Args : Type} `{Engine Args}.

Lemma predictive_step_keeps draws args i (w : world Args) r w1 :
  predictive_step draws args i tt w = (r, w1) →
  posterior w1 = posterior w ∧ posterior_runs w1 = posterior_runs w ∧
  ∃ ys, yields w1 = yields w ++ ys ∧ (length ys ≤ 1)%nat ∧
        Forall (λ v, ∃ l, v = Triple l 0%Qc 0) ys ∧ (r = Ok tt → length ys = 1%nat).
Proof.
  unfold predictive_step, mbind, M_bind, in_posterior, in_objects, get, yield, modify.
  simpl. destruct (__call__ (posterior w) (draws i) (objects w)) as [[l|e] h1].
  - simpl. intros; simplify_eq. simpl. split; [done|]. split; [done|].
    eexists [_]. split; [done|]. split; [simpl; lia|]. split; [|done].
    constructor; [|constructor]. eauto.
  - intros; simplify_eq. simpl. split; [done|]. split; [done|].
    exists []. rewrite app_nil_r. split; [done|]. split; [simpl; lia|]. split; [constructor|done].
Qed.

Lemma predictive_loop_keeps draws args n : ∀ start (w : world Args) r w',
  for_enumerate (predictive_step draws args) start (replicate n tt) w = (r, w') →
  posterior w' = posterior w ∧ posterior_runs w' = posterior_runs w ∧
  ∃ ys, yields w' = yields w ++ ys ∧ (length ys ≤ n)%nat ∧
        Forall (λ v, ∃ l, v = Triple l 0%Qc 0) ys ∧ (r = Ok tt → length ys = n).
Proof.
  induction n as [|n IH]; intros start w r w' Hloop; simpl in Hloop.
  - unfold mret, M_ret in Hloop. simplify_eq. split; [done|]. split; [done|].
    exists []. by rewrite app_nil_r.
  - unfold mbind, M_bind in Hloop.
    destruct (predictive_step draws args start tt w) as [[[]|e] w1] eqn:Hstep.
    + apply predictive_step_keeps in Hstep as (Hp & Hr & ys1 & Hy1 & _ & Hall1 & Hlen1).
      apply IH in Hloop as (Hp' & Hr' & ys & Hy & Hle & Hall & Hlen).
      split; [congruence|]. split; [congruence|].
      exists (ys1 ++ ys). rewrite Hy, Hy1, <-app_assoc. split; [done|].
      rewrite length_app, Hlen1 by done. split; [lia|]. split; [by apply Forall_app|].
      intros Hr0. rewrite Hlen by done. done.
    + simplify_eq.
      apply predictive_step_keeps in Hstep as (Hp & Hr & ys1 & Hy1 & Hle & Hall1 & _).
      split; [done|]. split; [done|]. exists ys1. split; [done|]. split; [lia|].
      split; [done|]. done.
Qed.

(** X17: the generator runs the upstream store exactly when that store holds
    no samples (so also one that was run and got nothing, never one that holds
    samples, which it leaves as it is); whatever happens next, all it yields
    are items of log-weight 0 and chain 0, at most [num_samples] of them, and
    exactly that many when it completes. *)
Theorem traces_runs_upstream_iff_empty (num_samples : Z) (draws : nat → Z) (args : Args)
    (w : world Args) :
  let w' := snd (_traces num_samples draws args w) in
  posterior_runs w' =
    (if decide (exec_traces (posterior w) = []) then posterior_runs w ++ [args]
     else posterior_runs w) ∧
  (exec_traces (posterior w) ≠ [] → posterior w' = posterior w) ∧
  ∃ ys, yields w' = yields w ++ ys ∧ (length ys ≤ Z.to_nat num_samples)%nat ∧
        Forall (λ v, ∃ l, v = Triple l 0%Qc 0) ys ∧
        (fst (_traces num_samples draws args w) = Ok tt →
         length ys = Z.to_nat num_samples).
Proof.
  destruct w as [h p runs ys0].
  unfold _traces, mbind, M_bind, in_posterior, get. simpl. case_decide as Hempty.
  - unfold posterior_run, mbind, M_bind, modify, in_objects, in_posterior. simpl.
    destruct (posterior_traces args h) as [traces h1]. simpl.
    destruct (run traces p) as [[[]|e] st]; simpl.
    + match goal with |- context [for_enumerate ?f ?s ?l ?w0] =>
        destruct (for_enumerate f s l w0) as [r w'] eqn:Hloop end.
      apply predictive_loop_keeps in Hloop as (Hp & Hr & ys & Hy & Hle & Hall & Hlen).
      simpl in *. split; [done|]. split; [done|]. exists ys. done.
    + split; [done|]. split; [done|]. exists []. rewrite app_nil_r.
      split; [done|]. split; [simpl; lia|]. split; [constructor|done].
  - unfold mret, M_ret. simpl.
    match goal with |- context [for_enumerate ?f ?s ?l ?w0] =>
      destruct (for_enumerate f s l w0) as [r w'] eqn:Hloop end.
    apply predictive_loop_keeps in Hloop as (Hp & Hr & ys & Hy & Hle & Hall & Hlen).
    simpl in *. split; [done|]. split; [done|]. exists ys. done.
Qed.
End generator_properties.

(** ** Running the posterior-predictive store *)

Lemma positions_single_chain n : ∀ start,
  positions 1 0 start (replicate n 0) = seq start n.
Proof. induction n as [|n IH]; intros start; simpl; [done|]. by rewrite IH. Qed.

Section predictive_run_properties.
Context {Args : Type} `{Engine Args}.

(** The generator protocol agrees with [_traces]: a round of its loop is the
    next item followed by its [yield], and the whole is the code before the
    loop followed by the rounds. *)
Lemma predictive_step_next_item draws args i (w : world Args) :
  predictive_step draws args i tt w =
  (vals ← TracePredictive.next_item draws args i; yield vals) w.
Proof.
  unfold predictive_step, TracePredictive.next_item, mbind, M_bind, in_posterior,
    in_objects, get, mret, M_ret.
  simpl. by destruct (__call__ (posterior w) (draws i) (objects w)) as [[l|e] h1].
Qed.

Lemma traces_start num_samples draws args (w : world Args) :
  _traces num_samples draws args w =
  (TracePredictive.start args;;
   for_enumerate (predictive_step draws args) 0 (replicate (Z.to_nat num_samples) tt)) w.
Proof.
  unfold _traces, TracePredictive.start, mbind, M_bind, in_posterior, get. simpl.
  by case_decide.
Qed.

Lemma next_item_spec draws args i (w : world Args) stored :
  selects (posterior w) (draws i) stored →
  ∃ w1, TracePredictive.next_item draws args i w =
          (Ok (Triple (S (next (objects w))) 0%Qc 0), w1) ∧
    posterior w1 = posterior w ∧ posterior_runs w1 = posterior_runs w ∧
    yields w1 = yields w ∧
    next (objects w1) = S (S (next (objects w))) ∧
    (∀ l, (l < next (objects w))%nat → cells (objects w1) l = cells (objects w) l) ∧
    cells (objects w1) (S (next (objects w))) =
      replay_get_trace args i (pruned (cells (objects w) stored)).
Proof.
  intros Hsel.
  destruct (call_select (posterior w) (draws i) (objects w) stored Hsel)
    as (h1 & Hcall & Hcell & Hnext & Hother).
  unfold TracePredictive.next_item, mbind, M_bind, in_posterior, in_objects, get,
    mret, M_ret.
  simpl. rewrite Hcall. simpl. rewrite Hnext, Hcell.
  eexists. split; [done|]. simpl. repeat split.
  - intros l Hl. rewrite fn_lookup_insert_ne by lia. apply Hother. lia.
  - by rewrite fn_lookup_insert.
Qed.

Lemma predictive_run_loop draws args st n : ∀ start (w : world Args) self,
  posterior w = st →
  idxs_by_chain self ≠ [] →
  Forall (λ l, (l < next (objects w))%nat) (exec_traces st) →
  (∀ i, (start ≤ i < start + n)%nat → ∃ stored, selects st (draws i) stored) →
  ∃ w' ls,
    for_enumerate (λ i _,
        vals ← TracePredictive.on_world (TracePredictive.next_item draws args i);
        TracePredictive.on_self (run_body i vals))
      start (replicate n tt) (w, self) =
      (Ok tt, (w', filed self start ((λ l, (l, 0%Qc, 0)) <$> ls))) ∧
    length ls = n ∧
    posterior w' = st ∧ posterior_runs w' = posterior_runs w ∧ yields w' = yields w ∧
    (next (objects w) ≤ next (objects w'))%nat ∧
    (∀ l, (l < next (objects w))%nat → cells (objects w') l = cells (objects w) l) ∧
    ∀ j, (j < n)%nat →
      ∃ l stored, ls !! j = Some l ∧ selects st (draws (start + j)%nat) stored ∧
        cells (objects w') l =
          replay_get_trace args (start + j)%nat (pruned (cells (objects w) stored)).
Proof.
  induction n as [|n IH]; intros start w self Hst Hchains Hwf Hdraws.
  - exists w, []. simpl. unfold mret, M_ret. split.
    + f_equal. f_equal. unfold filed. destruct self; simpl. rewrite !app_nil_r. f_equal.
      apply list_eq; intros j. rewrite list_lookup_imap.
      destruct (_ !! j); simpl; [|done]. by rewrite app_nil_r.
    + repeat split; try done. intros j Hj. lia.
  - destruct (Hdraws start) as [stored Hsel]; [lia|]. rewrite <-Hst in Hsel.
    destruct (next_item_spec draws args start w stored Hsel)
      as (w1 & Hstep & Hp1 & Hr1 & Hy1 & Hn1 & Ho1 & Hc1).
    assert (norm_index (length (idxs_by_chain self))
              ((S (next (objects w)), 0%Qc, 0) : loc * Qc * Z).2 = Some 0%nat) as Hc.
    { simpl. rewrite norm_index_nonneg; [done|]. destruct (idxs_by_chain self); simpl; [done|lia]. }
    destruct (IH (S start) w1 (filed self start [(S (next (objects w)), 0%Qc, 0)]))
      as (w' & ls & Hloop & Hlen & Hp' & Hr' & Hy' & Hn' & Ho' & Hls).
    { by rewrite Hp1. }
    { intros Hnil. apply (f_equal length) in Hnil. rewrite length_idxs_filed in Hnil.
      destruct (idxs_by_chain self); done. }
    { eapply Forall_impl; [exact Hwf|]. simpl. intros l Hl. lia. }
    { intros i Hi. apply Hdraws. lia. }
    exists w', (S (next (objects w)) :: ls).
    simpl. unfold mbind at 1, M_bind at 1.
    unfold mbind at 1, M_bind at 1, TracePredictive.on_world at 1. simpl.
    rewrite Hstep. unfold TracePredictive.on_self at 1. simpl.
    change (Triple (S (next (objects w))) 0%Qc 0)
      with (of_triple (S (next (objects w)), 0%Qc, 0)).
    rewrite (run_body_filed self start _ 0%nat Hc). rewrite Hloop, filed_cons.
    split; [done|]. split; [simpl; lia|]. split; [done|]. split; [congruence|].
    split; [congruence|]. split; [lia|].
    split. { intros l Hl. rewrite Ho' by lia. by apply Ho1. }
    intros [|j] Hj.
    + exists (S (next (objects w))), stored. rewrite Nat.add_0_r.
      split; [done|]. split; [by rewrite <-Hst|]. rewrite Ho' by lia. done.
    + destruct (Hls j) as (l & stored' & Hl & Hsel' & Hcell); [lia|].
      exists l, stored'. replace (start + S j)%nat with (S start + j)%nat by lia.
      split; [done|]. split; [done|]. rewrite Hcell. f_equal. f_equal.
      apply Ho1. rewrite Forall_forall in Hwf. apply Hwf.
      by eapply selects_elem_of.
Qed.

(** X18: [run] on a posterior-predictive store (one chain, as its constructor
    leaves it), over an upstream store that is ready once the generator has
    started and from which every draw selects a record, completes and leaves
    [num_samples] samples, all of log-weight 0 and all listed, in order,
    under chain 0; the [j]-th record is the replay of the model against the
    pruned copy of the record the [j]-th draw selects. *)
Theorem predictive_run_stores (num_samples : Z) (draws : nat → Z) (args : Args)
    (w w1 : world Args) (self : TracePosterior) :
  num_chains self = 1 →
  TracePredictive.start args w = (Ok tt, w1) →
  Forall (λ l, (l < next (objects w1))%nat) (exec_traces (posterior w1)) →
  (∀ i, (i < Z.to_nat num_samples)%nat → ∃ stored, selects (posterior w1) (draws i) stored) →
  ∃ w' self',
    TracePredictive.run num_samples draws args (w, self) = (Ok tt, (w', self')) ∧
    num_chains self' = 1 ∧
    length (exec_traces self') = Z.to_nat num_samples ∧
    log_weights self' = replicate (Z.to_nat num_samples) 0%Qc ∧
    idxs_by_chain self' = [seq 0 (Z.to_nat num_samples)] ∧
    _categorical self' = Some (log_weights self') ∧
    posterior w' = posterior w1 ∧ posterior_runs w' = posterior_runs w1 ∧
    ∀ j, (j < Z.to_nat num_samples)%nat →
      ∃ l stored, exec_traces self' !! j = Some l ∧
        selects (posterior w1) (draws j) stored ∧
        cells (objects w') l =
          replay_get_trace args j (pruned (cells (objects w1) stored)).
Proof.
  intros Hnc Hstart Hwf Hdraws.
  destruct (predictive_run_loop draws args (posterior w1) (Z.to_nat num_samples) 0 w1
              (snd (_reset self)))
    as (w' & ls & Hloop & Hlen & Hp' & Hr' & Hy' & _ & _ & Hls); try done.
  { simpl. by rewrite Hnc. }
  { intros i Hi. apply Hdraws. lia. }
  exists w', (ready (num_chains self) ((λ l, (l, 0%Qc, 0)) <$> ls)).
  split.
  - unfold TracePredictive.run. unfold mbind at 1, M_bind at 1.
    unfold TracePredictive.on_self at 1. simpl.
    unfold mbind at 1, M_bind at 1. unfold TracePredictive.on_world at 1. simpl.
    rewrite Hstart. unfold mbind at 1, M_bind at 1.
    simpl in Hloop. rewrite Hloop.
    unfold TracePredictive.on_self. simpl.
    pose proof (filed_reset self ((λ l, (l, 0%Qc, 0)) <$> ls)) as Hfr.
    unfold build_categorical, modify, filed in Hfr. simpl in Hfr.
    injection Hfr as Hfr. simpl. by rewrite Hfr.
  - rewrite Hnc. unfold ready; simpl.
    rewrite <-!list_fmap_compose, !length_fmap.
    assert (((λ l : loc, (l, 0%Qc, 0)) <$> ls).*2 = replicate (length ls) 0) as Hz.
    { rewrite <-list_fmap_compose. clear. induction ls; simpl; [done|]. by f_equal. }
    assert (((λ l : loc, (l, 0%Qc, 0)) <$> ls).*1.*2 = replicate (length ls) 0%Qc) as Hws.
    { rewrite <-!list_fmap_compose. clear. induction ls; simpl; [done|]. by f_equal. }
    assert (((λ l : loc, (l, 0%Qc, 0)) <$> ls).*1.*1 = ls) as Hls'.
    { rewrite <-!list_fmap_compose. clear. induction ls; simpl; [done|]. by f_equal. }
    rewrite !list_fmap_compose, Hz, Hws, Hls', positions_single_chain, Hlen.
    repeat split; try done.
Qed.
End predictive_run_properties.

Lemma predictive_run_stores_witness :
  ∃ w' self',
    @TracePredictive.run unit sample_engine 3 (λ i, Z.of_nat i) tt
      (sample_world, TracePredictive.__init__) = (Ok tt, (w', self')) ∧
    num_chains self' = 1 ∧
    length (exec_traces self') = Z.to_nat 3 ∧
    log_weights self' = replicate (Z.to_nat 3) 0%Qc ∧
    idxs_by_chain self' = [seq 0 (Z.to_nat 3)] ∧
    _categorical self' = Some (log_weights self') ∧
    posterior w' = sample_store ∧ posterior_runs w' = [tt] ∧
    ∀ j, (j < Z.to_nat 3)%nat →
      ∃ l stored, exec_traces self' !! j = Some l ∧
        selects sample_store (Z.of_nat j) stored ∧
        cells (objects w') l =
          @replay_get_trace unit sample_engine tt j (pruned (cells sample_heap stored)).
Proof.
  apply (@predictive_run_stores unit sample_engine 3 (λ i, Z.of_nat i) tt sample_world
           {| objects := sample_heap; posterior := sample_store;
              posterior_runs := [tt]; yields := [] |} TracePredictive.__init__).
  - reflexivity.
  - reflexivity.
  - repeat constructor; simpl; lia.
  - intros i Hi. exists i.
    destruct i as [|[|[|i]]]; [| | |simpl in Hi; lia];
      eexists _, _, _; repeat split; vm_compute; congruence.
Defined.

(** ** Chains of equal length *)

Lemma sum_list_length_const (L : list (list nat)) m :
  Forall (λ l, length l = m) L → sum_list (length <$> L) = (length L * m)%nat.
Proof.
  induction 1 as [|l L Hl _ IH]; [done|].
  rewrite fmap_cons. simpl. rewrite IH. lia.
Qed.

(** X19: when all chains hold the same number of samples, whatever the order
    in which they were yielded, [__call__] succeeds for every index of the
    resampler's support, and every stored record is returned (as a pruned
    copy) for some index of the support. *)
Theorem call_balanced (items : list yielded) (self0 self : TracePosterior) (h : heap)
    (m : nat) :
  run items self0 = (Ok tt, self) →
  Forall (λ idxs, length idxs = m) (idxs_by_chain self) →
  (∀ g, 0 ≤ g < Z.of_nat (length (log_weights self)) →
     ∃ stored h', stored ∈ exec_traces self ∧
       __call__ self g h = (Ok (next h), h') ∧
       cells h' (next h) = pruned (cells h stored)) ∧
  (∀ p stored, exec_traces self !! p = Some stored →
     ∃ g h', 0 ≤ g < Z.of_nat (length (log_weights self)) ∧
       __call__ self g h = (Ok (next h), h') ∧
       cells h' (next h) = pruned (cells h stored)).
Proof.
  intros Hrun Hbal.
  pose proof (length_ready_weights _ _ _ Hrun) as Hlen.
  pose proof (ready_idxs_valid _ _ _ Hrun) as Hvalid.
  pose proof (run_Ok_partition _ _ _ Hrun) as [Hsum Hpart].
  rewrite (sum_list_length_const _ m Hbal) in Hsum.
  assert (length (idxs_by_chain self) = Z.to_nat (num_chains self)
          ∧ _categorical self = Some (log_weights self)) as [Hk Hcat].
  { pose proof Hrun as (ts & _ & _ & ->)%run_Ok_inv. unfold ready; simpl.
    by rewrite length_fmap, length_seq. }
  assert (∀ g c w, 0 ≤ g < Z.of_nat (length (log_weights self)) →
            (c < length (idxs_by_chain self))%nat → (w < m)%nat →
            g `mod` num_chains self = Z.of_nat c → g `div` num_chains self = Z.of_nat w →
            ∃ p stored, (∃ idxs, idxs_by_chain self !! c = Some idxs ∧ idxs !! w = Some p) ∧
              exec_traces self !! p = Some stored ∧ selects self g stored) as Hsel.
  { intros g c w Hg Hc Hw Hmod Hdiv.
    destruct (lookup_lt_is_Some_2 _ _ Hc) as [idxs Hidxs].
    rewrite Forall_lookup in Hbal, Hvalid.
    pose proof (Hbal _ _ Hidxs) as Hm.
    destruct (lookup_lt_is_Some_2 idxs w) as [p Hp]; [lia|].
    pose proof (Hvalid _ _ Hidxs) as Hv. rewrite Forall_lookup in Hv.
    destruct (lookup_lt_is_Some_2 _ _ (Hv _ _ Hp)) as [stored Hst].
    exists p, stored. split; [eauto|]. split; [done|].
    exists (log_weights self), idxs, p. split; [done|]. split; [done|].
    split; [lia|]. rewrite Hmod, Hdiv.
    split; [by apply getitem_nat|]. split; by apply getitem_nat. }
  split.
  - intros g Hg.
    assert (0 < num_chains self) as Hnc by (destruct (length (idxs_by_chain self)); lia).
    pose proof (Z.mod_pos_bound g (num_chains self) Hnc) as Hmod.
    assert (0 ≤ g `div` num_chains self) as Hdiv0 by (apply Z.div_pos; lia).
    assert (g `div` num_chains self < Z.of_nat m) as Hdiv.
    { apply Z.div_lt_upper_bound; [done|]. nia. }
    destruct (Hsel g (Z.to_nat (g `mod` num_chains self)) (Z.to_nat (g `div` num_chains self)))
      as (p & stored & _ & Hst & Hs); try lia.
    destruct (call_select self g h stored Hs) as (h' & Hcall & Hcell & _).
    exists stored, h'. split; [by eapply list_elem_of_lookup_2|done].
  - intros p stored Hst.
    destruct (Hpart p) as (c & idxs & Hidxs & [w Hw]%list_elem_of_lookup & _);
      [by eapply lookup_lt_Some|].
    pose proof (lookup_lt_Some _ _ _ Hidxs) as Hc.
    rewrite Forall_lookup in Hbal. pose proof (Hbal _ _ Hidxs) as Hm.
    pose proof (lookup_lt_Some _ _ _ Hw) as Hwm.
    assert (0 < num_chains self) as Hnc by lia.
    set (g := Z.of_nat c + Z.of_nat w * num_chains self).
    assert (0 ≤ g < Z.of_nat (length (log_weights self))) as Hg by (unfold g; nia).
    destruct (Hsel g c w) as (p' & stored' & (idxs' & Hidxs' & Hw') & Hst' & Hs);
      try done; try lia.
    { unfold g. rewrite Z_mod_plus_full. apply Z.mod_small. lia. }
    { unfold g. rewrite Z.div_add by lia. rewrite Z.div_small by lia. lia. }
    rewrite Hidxs in Hidxs'. injection Hidxs' as <-.
    rewrite Hw in Hw'. injection Hw' as <-.
    rewrite Hst in Hst'. injection Hst' as <-.
    destruct (call_select self g h stored Hs) as (h' & Hcall & Hcell & _).
    by exists g, h'.
Qed.

Lemma call_balanced_witness :
  let self := ready 2 [(0%nat, 0%Qc, 0); (1%nat, 0%Qc, 0); (2%nat, 0%Qc, 1); (3%nat, 0%Qc, 1)] in
  (∀ g, 0 ≤ g < Z.of_nat (length (log_weights self)) →
     ∃ stored h', stored ∈ exec_traces self ∧
       __call__ self g sample_heap = (Ok (next sample_heap), h') ∧
       cells h' (next sample_heap) = pruned (cells sample_heap stored)) ∧
  (∀ p stored, exec_traces self !! p = Some stored →
     ∃ g h', 0 ≤ g < Z.of_nat (length (log_weights self)) ∧
       __call__ self g sample_heap = (Ok (next sample_heap), h') ∧
       cells h' (next sample_heap) = pruned (cells sample_heap stored)).
Proof.
  apply (call_balanced
           [Triple 0%nat 0%Qc 0; Triple 1%nat 0%Qc 0; Triple 2%nat 0%Qc 1; Triple 3%nat 0%Qc 1]
           (__init__ 2) _ sample_heap 2).
  - reflexivity.
  - repeat constructor.
Defined.

(** ** Marginals at the edge *)

(** X20: over a store that holds no samples a marginal is built without
    fetching anything and is empty, whatever the selector; over a ready store
    that holds samples an empty list of sites cannot be stacked and the
    construction raises RuntimeError. *)
Theorem marginal_edge_cases (h : heap) (tp : TracePosterior) (sites : option site_selector) :
  (exec_traces tp = [] →
   EmpiricalMarginal h tp sites = Ok {| samples_buffer := []; weights_buffer := [] |}) ∧
  (∀ items self0, run items self0 = (Ok tt, tp) → exec_traces tp ≠ [] →
   EmpiricalMarginal h tp (Some (ManySites [])) = Raise RuntimeError).
Proof.
  split.
  - intros Hnil. unfold EmpiricalMarginal, _populate_traces. by rewrite Hnil.
  - intros items self0 Hlen%length_ready_weights Hne.
    destruct (EmpiricalMarginal h tp (Some (ManySites []))) as [em|e] eqn:Hem.
    + apply (EmpiricalMarginal_inv h tp _ _ Hlen) in Hem as [_ Hvs].
      destruct (exec_traces tp) as [|l ls]; [done|].
      by apply Forall2_cons_inv_l in Hvs as (v & vs & Hv & _).
    + apply (EmpiricalMarginal_inv h tp _ _ Hlen) in Hem as (l & _ & Hv).
      simpl in Hv. unfold mbind, result_bind, mret, result_ret in Hv. simpl in Hv.
      by simplify_eq.
Qed.
